(** * pgbulk: the bulk upsert / bulk update SQL compiler of [pgbulk/core.py]

    A shallow embedding of the compilation engine: field selection
    ([_get_update_fields]), auto-timestamp population ([_fill_auto_fields]),
    row sequencing ([_sort_by_unique_fields], [sorted]), VALUES encoding
    ([_get_values_for_rows]), SET / change-predicate rendering
    ([_get_update_fields_sql]), RETURNING rendering ([_get_returning_sql]),
    the two statement compilers ([_get_upsert_sql], [_update]) and the result
    wrapper ([UpsertResult]).

    Python strings are [string], dictionaries used for lookup are [gmap],
    dictionaries whose iteration order is observed are association lists,
    model instances live in a heap addressed by references, and the effects
    of the engine (reading the clock, mutating instances, executing a
    statement, raising) are threaded through a small state-and-exception
    monad.

    The module is embedded as it loads with the psycopg2 driver
    ([psycopg_maj_version == 2]): identifiers are quoted by [quote_ident],
    and the names [LiteralValue] and [LiteralDumper], which the module
    defines in its psycopg 3 branch only, are not defined. *)

From Stdlib Require Import ZArith QArith String Ascii List Bool Lia Permutation Sorted.
From stdpp Require Import base option list gmap strings.

Import ListNotations.
Local Open Scope Z_scope.
Local Open Scope list_scope.
Local Open Scope stdpp_scope.

(** * Part I: the embedding *)

(** ** Text *)

(** [sep.join(parts)] *)
Definition join (sep : string) (parts : list string) : string :=
  String.concat sep parts.

(** The double quote character of identifier quoting. *)
Definition dquote : ascii := ascii_of_nat 34.

Definition starts_with_s (s : string) : bool :=
  match s with
  | String c _ => Ascii.eqb c "s"
  | EmptyString => false
  end.

(** Number of [%s] positional placeholders of a statement text: the
    positions at which the two characters [%], [s] stand. *)
Fixpoint count_placeholders (s : string) : nat :=
  match s with
  | EmptyString => 0%nat
  | String c rest =>
      ((if Ascii.eqb c "%" && starts_with_s rest then 1 else 0)
       + count_placeholders rest)%nat
  end.

(** A text without any percent sign. *)
Fixpoint percent_free (s : string) : bool :=
  match s with
  | EmptyString => true
  | String c rest => negb (Ascii.eqb c "%") && percent_free rest
  end.

(** ** Values, exceptions *)

(** A [float]: a finite number, or a NaN.  A NaN is equal to no float, not
    even to itself; what tells one NaN from another is the object that
    carries it. *)
Inductive pyfloat : Type :=
| Finite (q : Q)
| NaN (obj : nat).

#[global] Instance Q_eq_dec : EqDecision Q.
Proof. solve_decision. Defined.

#[global] Instance pyfloat_eq_dec : EqDecision pyfloat.
Proof. solve_decision. Defined.

(** Python values that travel through the engine: attribute values of model
    instances, storage literals and statement arguments.  [VTime] is an aware
    [datetime]; [VExpr] is an object with [resolve_expression] / [as_sql] (a
    Django expression), given by the SQL text the external compiler renders
    for it. *)
Inductive value : Type :=
| VNone
| VInt (n : Z)
| VFloat (x : pyfloat)
| VStr (s : string)
| VTime (t : Z)
| VExpr (sql : string).

#[global] Instance value_eq_dec : EqDecision value.
Proof. solve_decision. Defined.

#[global] Instance value_inhabited : Inhabited value := populate VNone.

Inductive exn : Type :=
| KeyError (key : string)
| ValueError (msg : string)
| AttributeError (msg : string)
| FieldDoesNotExist (field_name : string)
| TypeError
| NameError (name : string).

Inductive result (A : Type) : Type :=
| Ok (a : A)
| Raise (e : exn).

Arguments Ok {A} a.
Arguments Raise {A} e.

#[global] Instance result_ret : MRet result := fun A a => Ok a.

#[global] Instance result_bind : MBind result := fun A B f m =>
  match m with
  | Ok a => f a
  | Raise e => Raise e
  end.

(** ** The schema collaborator: fields and models *)

(** A Django field, as far as the engine reads it.  [is_auto_field] is
    [isinstance(field, models.AutoField)]; [get_db_prep_save] is the field's
    conversion of a value to its storage literal. *)
Record Field : Type := {
  name : string;
  attname : string;
  column : string;
  db_type : string;
  primary_key : bool;
  auto_now : bool;
  auto_now_add : bool;
  generated : bool;
  concrete : bool;
  is_auto_field : bool;
  get_db_prep_save : value -> value;
}.

(** [model._meta]: the table name, [model._meta.fields] and [model._meta.pk].
    The embedding covers the forward fields of [_meta.fields]: the model has
    no many-to-many field and no reverse relation. *)
Record Model : Type := {
  db_table : string;
  fields : list Field;
  pk : option Field;
}.

(** [dict] built by a comprehension or a loop: a later entry replaces an
    earlier one with the same key. *)
Definition dict_of {V : Type} (key : V -> string) (l : list V) : gmap string V :=
  foldl (fun acc v => <[key v := v]> acc) ∅ l.

(** Django's [Options.get_field]: forward fields are found by [name] and by
    [attname]; an unknown name raises [FieldDoesNotExist]. *)
Definition forward_fields_map (model : Model) : gmap string Field :=
  foldl (fun acc f => <[attname f := f]> (<[name f := f]> acc)) ∅ (fields model).

Definition get_field (model : Model) (field_name : string) : result Field :=
  match forward_fields_map model !! field_name with
  | Some f => Ok f
  | None => Raise (FieldDoesNotExist field_name)
  end.

(** ** Update fields *)

(** A compiled expression object: [as_sql_text] is what
    [cursor.mogrify] renders for [expr.as_sql(compiler, connection)] of the
    resolved expression. *)
Record Expression : Type := { as_sql_text : string }.

(** An element of [update_fields]: a plain [str], or an [UpdateField] (a
    [str] carrying an optional expression). *)
Inductive update_field : Type :=
| Str (s : string)
| UpdateField (field : string) (expression : option Expression).

(** The string an update field is, as a [str]. *)
Definition str_of (f : update_field) : string :=
  match f with
  | Str s => s
  | UpdateField s _ => s
  end.

(** [f.expression if isinstance(f, UpdateField) and f.expression] *)
Definition expression_of (f : update_field) : option Expression :=
  match f with
  | Str _ => None
  | UpdateField _ e => e
  end.

(** ** [_quote], [_model_fields] *)

Fixpoint escape_dquotes (s : string) : string :=
  match s with
  | EmptyString => EmptyString
  | String c rest =>
      if Ascii.eqb c dquote
      then String dquote (String dquote (escape_dquotes rest))
      else String c (escape_dquotes rest)
  end.

(** [_quote(field, cursor)]: the driver's identifier escaping
    ([quote_ident] / [Escaping.escape_identifier]): the name between double
    quotes, embedded double quotes doubled. *)
Definition _quote (field : string) : string :=
  String dquote (escape_dquotes field +:+ String dquote EmptyString).

Definition _model_fields (model : Model) : list Field :=
  filter (fun f => negb (generated f) && concrete f = true) (fields model).

(** ** [_get_update_fields] *)

(** The dictionary [fields] of [_get_update_fields]. *)
Definition update_fields_dict (model : Model) : gmap string Field :=
  dict_of name (_model_fields model) ∪ dict_of attname (_model_fields model).

Definition in_list (s : string) (l : list string) : bool :=
  bool_decide (s ∈ l).

(** One step of the list comprehension's condition:
    [attname not in exclude and not getattr(fields[attname], "auto_now_add", False)
     and not fields[attname].primary_key]. *)
Definition keep_update_field (fields_ : gmap string Field) (exclude : list string)
    (f : update_field) : result bool :=
  if in_list (str_of f) exclude then Ok false
  else match fields_ !! str_of f with
       | None => Raise (KeyError (str_of f))
       | Some fld => Ok (negb (auto_now_add fld) && negb (primary_key fld))
       end.

Fixpoint filter_result {A : Type} (p : A -> result bool) (l : list A) : result (list A) :=
  match l with
  | [] => Ok []
  | x :: l' =>
      b ← p x;
      rest ← filter_result p l';
      mret (if b : bool then x :: rest else rest)
  end.

Definition _get_update_fields (model : Model) (to_update : option (list update_field))
    (exclude : option (list string)) : result (list update_field) :=
  let exclude := default [] exclude in
  let fields_ := update_fields_dict model in
  let to_update :=
    match to_update with
    | None => map (fun f => Str (attname f)) (_model_fields model)
    | Some l => l
    end in
  filter_result (keep_update_field fields_ exclude) to_update.

(** ** Model instances, the world, and the engine's effects *)

(** A reference to a model instance. *)
Definition loc : Type := nat.

(** The state the engine acts on: the instances the caller holds (each one
    its attribute dictionary), the clock behind [timezone.now()], and the
    statements handed to the execution layer so far, with their arguments. *)
Record World : Type := {
  heap : gmap nat (gmap string value);
  clock : Z;
  executed : list (string * list value);
}.

(** [getattr(obj, attname)].  A Django instance carries an attribute for
    each of its fields; an attribute never set reads as [None]. *)
Definition getattr (h : gmap nat (gmap string value)) (obj : loc) (a : string) : value :=
  default VNone (h !! obj ≫= fun o => o !! a).

Definition M (A : Type) : Type := World -> result A * World.

#[global] Instance M_ret : MRet M := fun A a w => (Ok a, w).

#[global] Instance M_bind : MBind M := fun A B f m w =>
  match m w with
  | (Ok a, w') => f a w'
  | (Raise e, w') => (Raise e, w')
  end.

(** A computation that only reads: it returns or raises, the world stays. *)
Definition lift {A : Type} (r : result A) : M A := fun w => (r, w).

Definition get_heap : M (gmap nat (gmap string value)) := fun w => (Ok (heap w), w).

(** [timezone.now()]: the current time; time passes between two readings. *)
Definition timezone_now : M value := fun w =>
  (Ok (VTime (clock w)),
   {| heap := heap w; clock := clock w + 1; executed := executed w |}).

(** [setattr(obj, a, v)].  An instance no attribute of which was set yet is
    the empty attribute dictionary. *)
Definition setattr (obj : loc) (a : string) (v : value) : M unit := fun w =>
  (Ok tt,
   {| heap := <[obj := <[a := v]> (default ∅ (heap w !! obj))]> (heap w);
      clock := clock w; executed := executed w |}).

(** [for x in l: body(x)] *)
Fixpoint for_each {A : Type} (l : list A) (body : A -> M unit) : M unit :=
  match l with
  | [] => mret tt
  | x :: l' => _ ← body x; for_each l' body
  end.

(** What the cursor holds after a statement with a result set:
    [cursor.description], given by the names of the result columns, and the
    rows that [cursor.fetchall()] returns.  The driver gives every row one
    value per column of the description. *)
Record result_set : Type := {
  description : list string;
  fetchall : list (list value);
}.

(** The execution collaborator.  [backend sql args] is the result set of the
    statement, [None] when it has none ([cursor.description] is [None]). *)
Record Cursor : Type := {
  backend : string -> list value -> option result_set;
}.

(** The world after a statement was handed to the execution layer. *)
Definition after_execute (w : World) (sql : string) (sql_args : list value) : World :=
  {| heap := heap w; clock := clock w; executed := executed w ++ [(sql, sql_args)] |}.

(** [cursor.execute(sql, sql_args)], then [cursor.description] and
    [cursor.fetchall()]. *)
Definition execute (cursor : Cursor) (sql : string) (sql_args : list value)
    : M (option result_set) := fun w =>
  (Ok (backend cursor sql sql_args), after_execute w sql sql_args).

(** ** [_fill_auto_fields] *)

Definition auto_field_names (model : Model) : list string :=
  map attname (filter (fun f => auto_now f || auto_now_add f = true) (_model_fields model)).

Definition _fill_auto_fields (model : Model) (values : list loc) : M (list loc) :=
  now ← timezone_now;
  _ ← for_each values (fun value =>
        for_each (auto_field_names model) (fun f => setattr value f now));
  mret values.

(** ** [_prep_sql_args], [_get_field_db_val] *)

(** An argument without [as_sql] is passed as it is.  For an argument with
    [as_sql] the comprehension calls [LiteralValue]; that name is not
    defined, and its evaluation raises [NameError]. *)
Definition _prep_sql_args (sql_args : list value) : result (list value) :=
  mapM (fun sql_arg =>
          match sql_arg with
          | VExpr _ => Raise (NameError "LiteralValue")
          | _ => Ok sql_arg
          end) sql_args.

Definition _get_field_db_val (field : Field) (v : value) : value :=
  match v with
  | VExpr sql => VExpr sql
  | _ => get_db_prep_save field v
  end.

(** ** Python's ordering and [sorted] *)

(** [p < q] on rationals. *)
Definition Qltb (p q : Q) : bool := negb (Qle_bool q p).

(** [x < y] on floats: false as soon as one of the two is a NaN. *)
Definition float_lt (x y : pyfloat) : bool :=
  match x, y with
  | Finite p, Finite q => Qltb p q
  | _, _ => false
  end.

(** [x < y] on values: defined between two numbers (an integer is compared
    with a float by its exact value), two strings, two datetimes; any other
    pair raises [TypeError] ([None]). *)
Definition py_lt (x y : value) : option bool :=
  match x, y with
  | VInt a, VInt b => Some (a <? b)
  | VInt a, VFloat g => Some (float_lt (Finite (inject_Z a)) g)
  | VFloat f, VInt b => Some (float_lt f (Finite (inject_Z b)))
  | VFloat f, VFloat g => Some (float_lt f g)
  | VStr a, VStr b => Some (String.ltb a b)
  | VTime a, VTime b => Some (a <? b)
  | _, _ => None
  end.

(** The number a value is, if it is a number and not a NaN. *)
Definition number (v : value) : option Q :=
  match v with
  | VInt n => Some (inject_Z n)
  | VFloat (Finite q) => Some q
  | _ => None
  end.

(** [x is y or x == y], the test by which a tuple comparison skips equal
    items: two numbers of the same value are equal; a NaN is equal to no
    value, and is skipped only against the same object. *)
Definition py_same (x y : value) : bool :=
  match number x, number y with
  | Some p, Some q => Qeq_bool p q
  | _, _ => bool_decide (x = y)
  end.

(** [xs < ys] on tuples: the first position at which the two differ
    decides; a proper prefix is smaller. *)
Fixpoint tuple_lt (xs ys : list value) : option bool :=
  match xs, ys with
  | [], [] => Some false
  | [], _ :: _ => Some true
  | _ :: _, [] => Some false
  | x :: xs', y :: ys' =>
      if py_same x y then tuple_lt xs' ys' else py_lt x y
  end.

Definition is_some {A : Type} (o : option A) : bool :=
  match o with
  | Some _ => true
  | None => false
  end.

(** [x < y] holds (and is defined). *)
Definition holds (o : option bool) : bool :=
  match o with
  | Some b => b
  | None => false
  end.

(** Stable insertion of [x], which stood before every element of [l]: it goes
    after the elements that are smaller than it, before the others. *)
Fixpoint insert_by {A K : Type} (lt : K -> K -> option bool) (key : A -> K)
    (x : A) (l : list A) : list A :=
  match l with
  | [] => [x]
  | y :: l' =>
      if holds (lt (key y) (key x)) then y :: insert_by lt key x l'
      else x :: y :: l'
  end.

(** Every two elements at different positions can be compared. *)
Fixpoint comparable {A K : Type} (lt : K -> K -> option bool) (key : A -> K)
    (l : list A) : bool :=
  match l with
  | [] => true
  | x :: l' =>
      forallb (fun y => is_some (lt (key x) (key y)) && is_some (lt (key y) (key x))) l'
      && comparable lt key l'
  end.

(** [sorted(l, key=key)]: a stable ascending sort that compares keys with
    [<].  It raises [TypeError] when the comparison of two keys is not
    supported; which pairs the interpreter compares is its own matter, here
    the call raises as soon as some pair at different positions is
    incomparable.  On keys that [<] orders, every stable sort returns the
    same list; on other keys (a NaN among them) the list depends on the
    comparisons that are made, and the embedding makes those of a stable
    insertion from the right. *)
Definition sorted {A K : Type} (lt : K -> K -> option bool) (key : A -> K)
    (l : list A) : result (list A) :=
  if comparable lt key l then Ok (foldr (insert_by lt key) [] l)
  else Raise TypeError.

(** ** [_sort_by_unique_fields], [_get_values_for_row], [_get_values_for_rows] *)

Definition unique_db_fields (model : Model) (unique_fields : list string) : list Field :=
  filter (fun f => in_list (attname f) unique_fields = true) (_model_fields model).

Definition sort_key (h : gmap nat (gmap string value)) (model : Model)
    (unique_fields : list string) (model_obj : loc) : list value :=
  map (fun field => _get_field_db_val field (getattr h model_obj (attname field)))
      (unique_db_fields model unique_fields).

Definition _sort_by_unique_fields (h : gmap nat (gmap string value)) (model : Model)
    (model_objs : list loc) (unique_fields : list string) : result (list loc) :=
  sorted tuple_lt (sort_key h model unique_fields) model_objs.

Definition _get_values_for_row (h : gmap nat (gmap string value)) (model_obj : loc)
    (all_fields : list Field) : list value :=
  map (fun field => _get_field_db_val field (getattr h model_obj (attname field)))
      all_fields.

(** The VALUES group of row [i]: typed placeholders for the first row,
    bare ones for the others. *)
Definition values_group (i : nat) (all_fields : list Field) : string :=
  if (i =? 0)%nat
  then "(" +:+ join ", " (map (fun f => "%s::" +:+ db_type f) all_fields) +:+ ")"
  else "(" +:+ join ", " (repeat "%s" (length all_fields)) +:+ ")".

(** The loop [for i, model_obj in enumerate(model_objs)], from index [i]. *)
Fixpoint _get_values_for_rows_from (i : nat) (h : gmap nat (gmap string value))
    (model_objs : list loc) (all_fields : list Field) : list string * list value :=
  match model_objs with
  | [] => ([], [])
  | model_obj :: rest =>
      let '(row_values, sql_args) :=
        _get_values_for_rows_from (S i) h rest all_fields in
      (values_group i all_fields :: row_values,
       _get_values_for_row h model_obj all_fields ++ sql_args)
  end.

Definition _get_values_for_rows (h : gmap nat (gmap string value))
    (model_objs : list loc) (all_fields : list Field) : list string * list value :=
  _get_values_for_rows_from 0 h model_objs all_fields.

(** ** [_get_returning_sql] *)

(** The [returning] argument: [True], [False], or a list of columns. *)
Inductive returning_arg : Type :=
| ReturningBool (b : bool)
| ReturningList (cols : list string).

(** Truth value of the argument, as [if returning] reads it. *)
Definition truthy (returning : returning_arg) : bool :=
  match returning with
  | ReturningBool b => b
  | ReturningList [] => false
  | ReturningList (_ :: _) => true
  end.

Definition status_case_sql : string :=
  ", CASE WHEN xmax = 0 THEN 'c' ELSE 'u' END AS status_".

Definition _get_returning_sql (returning : returning_arg) (model : Model)
    (include_status : bool) : string :=
  let returning :=
    match returning with
    | ReturningBool true => map column (_model_fields model)
    | ReturningBool false => []
    | ReturningList cols => cols
    end in
  match returning with
  | [] => EmptyString
  | _ :: _ =>
      let table := _quote (db_table model) in
      let returning_sql :=
        join ", " (map (fun field => table +:+ "." +:+ _quote field) returning) in
      let returning_sql :=
        if include_status then returning_sql +:+ status_case_sql else returning_sql in
      "RETURNING " +:+ returning_sql
  end.

(** ** [_get_update_fields_sql] *)

(** A [dict] whose order of keys is observed: assignment to a key that is
    present keeps its place, a new key goes last. *)
Fixpoint dict_set {V : Type} (k : string) (v : V) (d : list (string * V))
    : list (string * V) :=
  match d with
  | [] => [(k, v)]
  | (k', v') :: d' =>
      if String.eqb k' k then (k', v) :: d' else (k', v') :: dict_set k v d'
  end.

Fixpoint dict_get {V : Type} (k : string) (d : list (string * V)) : option V :=
  match d with
  | [] => None
  | (k', v') :: d' => if String.eqb k' k then Some v' else dict_get k d'
  end.

(** [[model._meta.get_field(f).column for f in fields]] *)
Definition columns_of (model : Model) (fields_ : list update_field) : result (list string) :=
  mapM (fun f => fld ← get_field model (str_of f); mret (column fld)) fields_.

(** The loop over [update_expressions.items()]. *)
Fixpoint assign_expressions (model : Model) (items : list (string * Expression))
    (update_fields_expressions : list (string * string)) : result (list (string * string)) :=
  match items with
  | [] => Ok update_fields_expressions
  | (field_name, expr) :: items' =>
      fld ← get_field model field_name;
      assign_expressions model items'
        (dict_set (column fld) (as_sql_text expr) update_fields_expressions)
  end.

(** [update_expressions]: the fields that carry an expression. *)
Definition update_expressions_of (fields_ : list update_field) : list (string * Expression) :=
  foldl (fun d f =>
           match expression_of f with
           | Some e => dict_set (str_of f) e d
           | None => d
           end) [] fields_.

(** [update_fields_expressions] before the expressions are assigned: each
    column read from the alias. *)
Definition alias_references (alias : string) (cols : list string) : list (string * string) :=
  foldl (fun d col => dict_set col (alias +:+ "." +:+ _quote col) d) [] cols.

(** [set_sql]: the SET list over [cols], the right-hand sides read from
    [update_fields_expressions]; every column is a key of that dictionary. *)
Definition set_list (cols : list string) (rhs : list (string * string)) : string :=
  join ", " (map (fun col => _quote col +:+ " = "
                             +:+ default EmptyString (dict_get col rhs)) cols).

(** [ignore_unchanged_sql] *)
Definition change_predicate (model : Model) (ignore_unchanged : bool)
    (cols : list string) (rhs : list (string * string)) : string :=
  match ignore_unchanged, cols with
  | true, _ :: _ =>
      "((" +:+ join ", " (map (fun col => _quote (db_table model) +:+ "." +:+ _quote col) cols)
      +:+ ") IS DISTINCT FROM ("
      +:+ join ", " (map snd rhs) +:+ "))"
  | _, _ => EmptyString
  end.

Definition _get_update_fields_sql (model : Model) (fields_ : list update_field)
    (alias : string) (ignore_unchanged : bool) : result (string * string) :=
  cols ← columns_of model fields_;
  let update_expressions := update_expressions_of fields_ in
  let update_fields_expressions := alias_references alias cols in
  update_fields_expressions ←
    assign_expressions model update_expressions update_fields_expressions;
  let set_sql := set_list cols update_fields_expressions in
  let ignore_unchanged_sql :=
    change_predicate model ignore_unchanged cols update_fields_expressions in
  mret (set_sql, ignore_unchanged_sql).

(** ** [_get_upsert_sql] *)

Definition insert_fields (model : Model) (unique_fields : list string) : list Field :=
  filter (fun f => in_list (column f) unique_fields || negb (is_auto_field f) = true)
         (_model_fields model).

(** The conflict arm of the statement. *)
Definition on_conflict (update_db_cols : list string)
    (update_fields_sql ignore_unchanged_sql : string) : string :=
  match update_db_cols with
  | _ :: _ => "DO UPDATE SET " +:+ update_fields_sql +:+ " " +:+ ignore_unchanged_sql
  | [] => "DO NOTHING"
  end.

(** [f"WHERE {ignore_unchanged_sql}"] when there is a change predicate. *)
Definition where_clause (ignore_unchanged_sql : string) : string :=
  match ignore_unchanged_sql with
  | EmptyString => EmptyString
  | _ => "WHERE " +:+ ignore_unchanged_sql
  end.

(** The statement template of the upsert. *)
Definition upsert_statement (table_name all_field_names_sql row_values_sql
    unique_field_names_sql on_conflict_sql return_sql : string) : string :=
  " INSERT INTO " +:+ table_name +:+ " (" +:+ all_field_names_sql +:+ ")"
  +:+ " VALUES " +:+ row_values_sql
  +:+ " ON CONFLICT (" +:+ unique_field_names_sql +:+ ") "
  +:+ on_conflict_sql +:+ " " +:+ return_sql.

Definition _get_upsert_sql (h : gmap nat (gmap string value)) (model : Model)
    (model_objs : list loc) (unique_fields : list string)
    (update_fields : list update_field) (returning : returning_arg)
    (ignore_unchanged : bool) : result (string * list value) :=
  let all_fields := insert_fields model unique_fields in
  let all_field_names := map column all_fields in
  let all_field_names_sql := join ", " (map _quote all_field_names) in
  unique_db_cols ← columns_of model (map Str unique_fields);
  update_db_cols ← columns_of model update_fields;
  let '(row_values, sql_args) := _get_values_for_rows h model_objs all_fields in
  let unique_field_names_sql := join ", " (map _quote unique_db_cols) in
  '(update_fields_sql, ignore_unchanged_sql) ←
    _get_update_fields_sql model update_fields "EXCLUDED" ignore_unchanged;
  let ignore_unchanged_sql := where_clause ignore_unchanged_sql in
  let return_sql := _get_returning_sql returning model true in
  let on_conflict_sql := on_conflict update_db_cols update_fields_sql ignore_unchanged_sql in
  let row_values_sql := join ", " row_values in
  mret (upsert_statement (db_table model) all_field_names_sql row_values_sql
          unique_field_names_sql on_conflict_sql return_sql,
        sql_args).

(** ** Result rows and [UpsertResult] *)

(** A result row: the named tuple that [nt_result] builds from a fetched
    row, its values under the names of the description. *)
Definition Row : Type := list (string * value).

(** [i.status_]: the field of that name; a named tuple without such a field
    raises [AttributeError]. *)
Definition status_of (i : Row) : result value :=
  match dict_get "status_" i with
  | Some v => Ok v
  | None => Raise (AttributeError "status_")
  end.

(** [UpsertResult.created] *)
Definition created (self : list Row) : result (list Row) :=
  filter_result (fun i => s ← status_of i; mret (bool_decide (s = VStr "c"))) self.

(** [UpsertResult.updated] *)
Definition updated (self : list Row) : result (list Row) :=
  filter_result (fun i => s ← status_of i; mret (bool_decide (s = VStr "u"))) self.

(** The named tuples built from [cursor.fetchall()] if [cursor.description],
    else the empty list.  The names of the description are the fields of
    the tuple. *)
Definition named_tuples (res : option result_set) : list Row :=
  match res with
  | Some rs =>
      match description rs with
      | [] => []
      | _ :: _ => map (fun row => zip (description rs) row) (fetchall rs)
      end
  | None => []
  end.

(** The rows an upsert statement gives the caller. *)
Definition upserted_rows (cursor : Cursor) (sql : string) (sql_args : list value) : list Row :=
  named_tuples (backend cursor sql sql_args).

(** The rows a bulk update statement gives the caller. *)
Definition updated_rows (cursor : Cursor) (sql : string) (sql_args : list value) : list Row :=
  named_tuples (backend cursor sql sql_args).

(** ** [_upsert] *)

Definition raise {A : Type} (e : exn) : M A := fun w => (Raise e, w).

(** The batch [model_objs] is a list: the engine iterates over it more than
    once. *)

Definition _upsert (cursor : Cursor) (model : Model) (model_objs : list loc)
    (unique_fields : list string) (update_fields : option (list update_field))
    (exclude : option (list string)) (returning : returning_arg)
    (ignore_unchanged : bool) : M (option (list Row)) :=
  let exclude := default [] exclude in
  _ ← _fill_auto_fields model model_objs;
  h ← get_heap;
  model_objs ← lift (_sort_by_unique_fields h model model_objs unique_fields);
  update_fields ←
    lift (_get_update_fields model update_fields (Some (exclude ++ unique_fields)));
  upserted ←
    match model_objs with
    | _ :: _ =>
        '(sql, sql_args) ←
          lift (_get_upsert_sql h model model_objs unique_fields update_fields
                  returning ignore_unchanged);
        sql_args ← lift (_prep_sql_args sql_args);
        res ← execute cursor sql sql_args;
        mret (named_tuples res)
    | [] => mret []
    end;
  mret (if truthy returning then Some upserted else None).

(** ** [_update] *)

(** [sorted(model_objs, key=lambda obj: obj.pk)].  [obj.pk] reads the
    attribute named by [model._meta.pk.attname]; on a model without a primary
    key that lookup raises [AttributeError] for the first object. *)
Definition sorted_by_pk (h : gmap nat (gmap string value)) (model : Model)
    (model_objs : list loc) : result (list loc) :=
  match pk model with
  | Some pk_field => sorted py_lt (fun obj => getattr h obj (attname pk_field)) model_objs
  | None =>
      match model_objs with
      | [] => Ok []
      | _ :: _ => Raise (AttributeError "'NoneType' object has no attribute 'attname'")
      end
  end.

(** The storage literals of one row of the bulk update. *)
Definition update_row_values (h : gmap nat (gmap string value)) (model : Model)
    (value_fields : list update_field) (model_obj : loc) : result (list value) :=
  mapM (fun field =>
          fld ← get_field model (str_of field);
          mret (_get_field_db_val fld (getattr h model_obj (attname fld))))
       value_fields.

(** The VALUES groups of the bulk update: in the first row every placeholder
    but the one at index 0 carries its type. *)
Definition update_values_sql (db_types : list string) (row_values : list (list value))
    : string :=
  join ", "
    (imap (fun row_number row =>
             "(" +:+ join ", "
                       (imap (fun i _ =>
                                if (row_number =? 0)%nat && negb (i =? 0)%nat
                                then "%s::" +:+ default EmptyString (db_types !! i)
                                else "%s") row)
             +:+ ")")
          row_values).

(** [[get_field(f).db_type(connection) for f in value_fields]] *)
Definition db_types_of (model : Model) (value_fields : list update_field)
    : result (list string) :=
  mapM (fun field => fld ← get_field model (str_of field); mret (db_type fld))
       value_fields.

(** [f"AND {ignore_unchanged_sql}"] when there is a change predicate. *)
Definition and_clause (ignore_unchanged_sql : string) : string :=
  match ignore_unchanged_sql with
  | EmptyString => EmptyString
  | _ => "AND " +:+ ignore_unchanged_sql
  end.

(** The statement template of the bulk update. *)
Definition update_statement (table pk_field alias update_fields_sql values_sql
    value_fields_sql ignore_unchanged_sql returning_sql : string) : string :=
  "UPDATE " +:+ table +:+ " "
  +:+ "SET " +:+ update_fields_sql +:+ " "
  +:+ "FROM (VALUES " +:+ values_sql +:+ ") AS " +:+ alias
  +:+ " (" +:+ value_fields_sql +:+ ") "
  +:+ "WHERE " +:+ table +:+ "." +:+ pk_field +:+ " = new_values." +:+ pk_field
  +:+ " " +:+ ignore_unchanged_sql +:+ " "
  +:+ returning_sql.

Definition _update (cursor : Cursor) (model : Model) (model_objs : list loc)
    (update_fields : option (list update_field)) (exclude : option (list string))
    (returning : returning_arg) (ignore_unchanged : bool) : M (option (list Row)) :=
  let alias := "new_values" in
  update_fields ← lift (_get_update_fields model update_fields exclude);
  update_db_cols ← lift (columns_of model update_fields);
  h ← get_heap;
  model_objs ← lift (sorted_by_pk h model model_objs);
  match pk model with
  | None => raise (ValueError "Model must have a primary key to perform a bulk update.")
  | Some pk_field =>
      let value_fields := Str (attname pk_field) :: update_fields in
      row_values ← lift (mapM (update_row_values h model value_fields) model_objs);
      if (length row_values =? 0)%nat || (length update_fields =? 0)%nat
      then mret None
      else
        db_types ← lift (db_types_of model value_fields);
        value_field_cols ← lift (columns_of model value_fields);
        let value_fields_sql := join ", " (map _quote value_field_cols) in
        let update_fields_sql :=
          join ", " (map (fun col => _quote col +:+ " = " +:+ alias +:+ "." +:+ _quote col)
                         update_db_cols) in
        '(update_fields_sql, ignore_unchanged_sql) ←
          lift (_get_update_fields_sql model update_fields alias ignore_unchanged);
        let values_sql := update_values_sql db_types row_values in
        let ignore_unchanged_sql := and_clause ignore_unchanged_sql in
        let update_sql :=
          update_statement (_quote (db_table model)) (_quote (column pk_field)) alias
            update_fields_sql values_sql value_fields_sql ignore_unchanged_sql
            (_get_returning_sql returning model false) in
        update_sql_params ← lift (_prep_sql_args (concat row_values));
        res ← execute cursor update_sql update_sql_params;
        let updated_ := named_tuples res in
        mret (if truthy returning then Some updated_ else None)
  end.

(** ** The vocabulary of the properties *)

(** [n] is neither the name nor the attribute name of a field the engine
    selects from. *)
Definition unknown_field (model : Model) (n : string) : Prop :=
  forall f, f ∈ _model_fields model -> name f <> n /\ attname f <> n.

(** [w'] is [w] with the attributes [names] of the instances [objs] set to
    [v]: nothing else differs. *)
Definition assigned (objs : list loc) (names : list string) (v : value)
    (w w' : World) : Prop :=
  executed w' = executed w /\ clock w' = clock w /\
  forall (l : loc) (b : string),
    getattr (heap w') l b
    = if bool_decide (l ∈ objs /\ b ∈ names) then v else getattr (heap w) l b.

(** A row is tagged created or updated, and not both. *)
Definition tagged (r : Row) : Prop :=
  (status_of r = Ok (VStr "c") \/ status_of r = Ok (VStr "u"))
  /\ ~ (status_of r = Ok (VStr "c") /\ status_of r = Ok (VStr "u")).

(** The text [s] ends with [suffix]. *)
Fixpoint ends_with (suffix s : string) : bool :=
  String.eqb s suffix
  || match s with
     | EmptyString => false
     | String _ rest => ends_with suffix rest
     end.

(** The text [s] holds [sub]. *)
Fixpoint contains (sub s : string) : bool :=
  String.prefix sub s
  || match s with
     | EmptyString => false
     | String _ rest => contains sub rest
     end.

(** The backend evaluates the status expression: the result set of a
    statement whose RETURNING list ends with
    [CASE WHEN xmax = 0 THEN 'c' ELSE 'u' END AS status_] has [status_] as
    its last column, after columns of other names, and the last value of
    each of its rows is ['c'] or ['u']. *)
Definition evaluates_status (cursor : Cursor) : Prop :=
  forall sql sql_args rs,
    backend cursor sql sql_args = Some rs ->
    ends_with status_case_sql sql = true ->
    exists names,
      description rs = names ++ ["status_"]
      /\ ("status_" ∉ names)
      /\ Forall (fun row => exists vals s,
                    row = vals ++ [VStr s] /\ length vals = length names
                    /\ (s = "c" \/ s = "u")) (fetchall rs).

(** A placeholder with its storage-type cast. *)
Definition typed_placeholder (ty : string) : string := "%s::" +:+ ty.

(** A parenthesized VALUES group. *)
Definition group (placeholders : list string) : string :=
  "(" +:+ join ", " placeholders +:+ ")".

(** [s] carries [k] placeholders, whatever text follows it. *)
Definition carries (k : nat) (s : string) : Prop :=
  forall rest, count_placeholders (s +:+ rest) = (k + count_placeholders rest)%nat.

(** No percent sign in the table name, in a column name, in a storage type. *)
Definition percent_free_schema (model : Model) : bool :=
  percent_free (db_table model)
  && forallb (fun f => percent_free (column f) && percent_free (db_type f)) (fields model)
  && from_option (fun f => percent_free (column f)) true (pk model).

(** No percent sign in the SQL of an update expression. *)
Definition percent_free_expressions (fields_ : list update_field) : bool :=
  forallb (fun f => match expression_of f with
                    | Some e => percent_free (as_sql_text e)
                    | None => true
                    end) fields_.

(** No percent sign in a column name of the [returning] list. *)
Definition percent_free_returning (returning : returning_arg) : bool :=
  match returning with
  | ReturningBool _ => true
  | ReturningList cols => forallb percent_free cols
  end.

(** The number of placeholders of a statement's text is the number of its
    arguments. *)
Definition parity (statement : string * list value) : Prop :=
  count_placeholders (fst statement) = length (snd statement).

(** [x] may stand before [y]: the two are comparable and [y] is not smaller. *)
Definition not_after {A K : Type} (lt : K -> K -> option bool) (key : A -> K)
    (x y : A) : Prop :=
  lt (key y) (key x) = Some false.

(** [x] can be compared, both ways, with every element of [l]. *)
Definition comparable_with {A K : Type} (lt : K -> K -> option bool) (key : A -> K)
    (x : A) (l : list A) : Prop :=
  Forall (fun y => is_some (lt (key x) (key y)) = true
                   /\ is_some (lt (key y) (key x)) = true) l.


(** The keys [a] and [b] tie: they are compared, and neither is smaller. *)
Definition tied {K : Type} (lt : K -> K -> option bool) (a b : K) : Prop :=
  lt a b = Some false /\ lt b a = Some false.

#[global] Instance tied_dec {K : Type} (lt : K -> K -> option bool) (a b : K) :
  Decision (tied lt a b).
Proof. unfold tied. apply _. Defined.


(** The right-hand side of the assignment to the column [col] of the update
    field [f]: the rendered expression of the field if it carries one, else
    the column read from [alias]. *)
Definition right_hand_side (alias : string) (f : update_field) (col : string) : string :=
  match expression_of f with
  | Some e => as_sql_text e
  | None => alias +:+ "." +:+ _quote col
  end.

(** The field [f] resolves to the column [col]. *)
Definition resolves_to (model : Model) (f : update_field) (col : string) : Prop :=
  exists fld, get_field model (str_of f) = Ok fld /\ column fld = col.

(** ** A concrete schema to evaluate the engine on *)

Definition plain_field (n a c ty : string) : Field :=
  {| name := n; attname := a; column := c; db_type := ty;
     primary_key := false; auto_now := false; auto_now_add := false;
     generated := false; concrete := true; is_auto_field := false;
     get_db_prep_save := fun v => v |}.

(** [id = models.AutoField(primary_key=True)] *)
Definition id_field : Field :=
  {| name := "id"; attname := "id"; column := "id"; db_type := "integer";
     primary_key := true; auto_now := false; auto_now_add := false;
     generated := false; concrete := true; is_auto_field := true;
     get_db_prep_save := fun v => v |}.

Definition email_field : Field := plain_field "email" "email" "email" "text".

Definition count_field : Field := plain_field "count" "count" "count" "integer".

(** [author = models.ForeignKey(...)]: the name and the attribute name differ. *)
Definition author_field : Field := plain_field "author" "author_id" "author_id" "integer".

(** [updated_at = models.DateTimeField(auto_now=True)] *)
Definition updated_at_field : Field :=
  {| name := "updated_at"; attname := "updated_at"; column := "updated_at";
     db_type := "timestamp";
     primary_key := false; auto_now := true; auto_now_add := false;
     generated := false; concrete := true; is_auto_field := false;
     get_db_prep_save := fun v => v |}.

(** [created_at = models.DateTimeField(auto_now_add=True)] *)
Definition created_at_field : Field :=
  {| name := "created_at"; attname := "created_at"; column := "created_at";
     db_type := "timestamp";
     primary_key := false; auto_now := false; auto_now_add := true;
     generated := false; concrete := true; is_auto_field := false;
     get_db_prep_save := fun v => v |}.

Definition account_model : Model :=
  {| db_table := "account";
     fields := [id_field; email_field; count_field; author_field;
                updated_at_field; created_at_field];
     pk := Some id_field |}.

(** Two instances: references 0 and 1. *)
Definition account_heap : gmap nat (gmap string value) :=
  <[0%nat := <["id" := VInt 2]> (<["email" := VStr "b"]> (<["count" := VInt 5]> ∅))]>
  (<[1%nat := <["id" := VInt 1]> (<["email" := VStr "a"]> (<["count" := VInt 1]> ∅))]> ∅).

Definition account_world : World :=
  {| heap := account_heap; clock := 100; executed := [] |}.

(** A backend that answers every statement that has a RETURNING clause with
    two rows, one inserted and one updated, and tells which is which when
    the clause ends with the status expression. *)
Definition two_row_cursor : Cursor :=
  {| backend := fun sql _ =>
       if ends_with status_case_sql sql
       then Some {| description := ["id"; "status_"];
                    fetchall := [[VInt 1; VStr "c"]; [VInt 2; VStr "u"]] |}
       else if contains "RETURNING " sql
       then Some {| description := ["id"]; fetchall := [[VInt 1]; [VInt 2]] |}
       else None |}.

(** A model without a primary key. *)
Definition keyless_model : Model :=
  {| db_table := "log"; fields := [email_field; count_field]; pk := None |}.





(** A table whose name contains a percent sign followed by [s]. *)
Definition percent_model : Model :=
  {| db_table := "growth_%s"; fields := [id_field; count_field]; pk := Some id_field |}.

(** * Part II: properties *)

(** ** Text *)

Lemma app_cons (c : ascii) (s t : string) : String c s +:+ t = String c (s +:+ t).
Proof. reflexivity. Qed.

Lemma app_assoc_s (a b c : string) : (a +:+ b) +:+ c = a +:+ (b +:+ c).
Proof.
  induction a as [|x a IH]; [reflexivity|].
  rewrite !app_cons. now rewrite IH.
Qed.

Lemma app_nil_r_s (a : string) : a +:+ EmptyString = a.
Proof.
  induction a as [|x a IH]; [reflexivity|].
  rewrite app_cons. now rewrite IH.
Qed.

Lemma percent_free_app (a b : string) :
  percent_free (a +:+ b) = percent_free a && percent_free b.
Proof.
  induction a as [|x a IH]; [reflexivity|].
  rewrite app_cons. simpl. rewrite IH. now rewrite andb_assoc.
Qed.

(** A percent-free prefix contributes no placeholder, whatever follows. *)
Lemma count_skip (a b : string) :
  percent_free a = true ->
  count_placeholders (a +:+ b) = count_placeholders b.
Proof.
  induction a as [|x a IH]; [reflexivity|]. simpl.
  intros [Hx Ha]%andb_true_iff. apply negb_true_iff in Hx.
  rewrite Hx. simpl. auto.
Qed.

Lemma count_percent_free (a : string) :
  percent_free a = true -> count_placeholders a = 0%nat.
Proof.
  intros H. rewrite <- (app_nil_r_s a). now rewrite count_skip.
Qed.

(** A placeholder at the front counts once. *)
Lemma count_placeholder (b : string) :
  count_placeholders ("%s" +:+ b) = S (count_placeholders b).
Proof. reflexivity. Qed.

Lemma join_cons2 (sep p q : string) (parts : list string) :
  join sep (p :: q :: parts) = p +:+ sep +:+ join sep (q :: parts).
Proof. reflexivity. Qed.

Lemma percent_free_join (sep : string) (parts : list string) :
  percent_free sep = true ->
  forallb percent_free parts = true ->
  percent_free (join sep parts) = true.
Proof.
  intros Hsep. induction parts as [|p parts IH]; [reflexivity|].
  intros H. cbn [forallb] in H. apply andb_true_iff in H as [Hp Hps].
  destruct parts as [|q parts]; [exact Hp|].
  rewrite join_cons2, !percent_free_app, Hp, Hsep. simpl. auto.
Qed.

Lemma percent_free_escape (s : string) :
  percent_free s = true -> percent_free (escape_dquotes s) = true.
Proof.
  induction s as [|c s IH]; [reflexivity|]. simpl.
  intros [Hc Hs]%andb_true_iff.
  destruct (Ascii.eqb c dquote) eqn:E; simpl.
  - now apply IH.
  - rewrite Hc. simpl. now apply IH.
Qed.

Lemma percent_free_quote (s : string) :
  percent_free s = true -> percent_free (_quote s) = true.
Proof.
  intros H. unfold _quote.
  change (percent_free (String dquote EmptyString +:+ escape_dquotes s
                        +:+ String dquote EmptyString) = true).
  rewrite !percent_free_app, percent_free_escape by exact H. reflexivity.
Qed.

(** ** The effects of the engine *)

Lemma getattr_setattr (obj : loc) (a : string) (v : value) (w : World) (l : loc) (b : string) :
  getattr (heap (snd (setattr obj a v w))) l b
  = if bool_decide (l = obj /\ b = a) then v else getattr (heap w) l b.
Proof.
  unfold getattr, setattr. simpl.
  destruct (decide (l = obj)) as [->|Hl].
  - rewrite lookup_insert_eq. simpl.
    destruct (decide (b = a)) as [->|Hb].
    + rewrite lookup_insert_eq. now rewrite bool_decide_eq_true_2.
    + rewrite lookup_insert_ne by congruence.
      rewrite bool_decide_eq_false_2 by (intros [_ ?]; congruence).
      destruct (heap w !! obj); reflexivity.
  - rewrite lookup_insert_ne by congruence.
    rewrite bool_decide_eq_false_2; [reflexivity | intros [? _]; congruence].
Qed.

Lemma for_each_cons {A : Type} (x : A) (l : list A) (body : A -> M unit) (w : World) :
  fst (body x w) = Ok tt ->
  for_each (x :: l) body w = for_each l body (snd (body x w)).
Proof.
  intros H. cbn [for_each]. unfold mbind, M_bind.
  destruct (body x w) as [r w1]. simpl in H. subst r. reflexivity.
Qed.

Lemma for_each_setattr (names : list string) (obj : loc) (v : value) (w : World) :
  fst (for_each names (fun f => setattr obj f v) w) = Ok tt
  /\ assigned [obj] names v w (snd (for_each names (fun f => setattr obj f v) w)).
Proof.
  revert w. induction names as [|a names IH]; intros w.
  - split; [reflexivity|]. split; [reflexivity|]. split; [reflexivity|].
    intros l b.
    rewrite bool_decide_eq_false_2; [reflexivity|]. intros [_ H]. inversion H.
  - rewrite for_each_cons by reflexivity.
    destruct (IH (snd (setattr obj a v w))) as [Hok (He & Hc & Hg)].
    split; [exact Hok|]. split; [|split].
    + rewrite He. reflexivity.
    + rewrite Hc. reflexivity.
    + intros l b. rewrite Hg, getattr_setattr.
      repeat case_bool_decide; try reflexivity; exfalso; set_unfold; intuition congruence.
Qed.

Lemma for_each_fill (objs : list loc) (names : list string) (v : value) (w : World) :
  let body := fun obj => for_each names (fun f => setattr obj f v) in
  fst (for_each objs body w) = Ok tt
  /\ assigned objs names v w (snd (for_each objs body w)).
Proof.
  cbv zeta. revert w. induction objs as [|obj objs IH]; intros w.
  - split; [reflexivity|]. split; [reflexivity|]. split; [reflexivity|].
    intros l b.
    rewrite bool_decide_eq_false_2; [reflexivity|]. intros [H _]. inversion H.
  - destruct (for_each_setattr names obj v w) as [Hok1 (He1 & Hc1 & Hg1)].
    rewrite for_each_cons by exact Hok1.
    destruct (IH (snd (for_each names (fun f => setattr obj f v) w)))
      as [Hok (He & Hc & Hg)].
    split; [exact Hok|]. split; [|split].
    + rewrite He. exact He1.
    + rewrite Hc. exact Hc1.
    + intros l b. rewrite Hg, Hg1.
      repeat case_bool_decide; try reflexivity; exfalso; set_unfold; intuition congruence.
Qed.

(** [_fill_auto_fields] returns its argument, reads the clock once, and sets
    the auto-timestamp attributes of the given instances to that reading. *)
Lemma _fill_auto_fields_run (model : Model) (values : list loc) (w : World) :
  exists w1 : World,
    _fill_auto_fields model values w = (Ok values, w1)
    /\ executed w1 = executed w
    /\ clock w1 = clock w + 1
    /\ forall (l : loc) (b : string),
         getattr (heap w1) l b
         = if bool_decide (l ∈ values /\ b ∈ auto_field_names model)
           then VTime (clock w) else getattr (heap w) l b.
Proof.
  unfold _fill_auto_fields, mbind, M_bind, timezone_now.
  set (w0 := {| heap := heap w; clock := clock w + 1; executed := executed w |}).
  destruct (for_each_fill values (auto_field_names model) (VTime (clock w)) w0)
    as [Hok (He & Hc & Hg)].
  cbv zeta in Hok, He, Hc, Hg.
  destruct (for_each values _ w0) as [r w1] eqn:E. simpl in Hok, He, Hc, Hg.
  subst r. exists w1. repeat split; auto.
Qed.

(** ** The two operations, step by step *)

Lemma _upsert_run (cursor : Cursor) (model : Model) (model_objs : list loc)
    (unique_fields : list string) (update_fields : option (list update_field))
    (exclude : option (list string)) (returning : returning_arg)
    (ignore_unchanged : bool) (w : World) :
  exists w1 : World,
    _fill_auto_fields model model_objs w = (Ok model_objs, w1)
    /\ _upsert cursor model model_objs unique_fields update_fields exclude returning
         ignore_unchanged w
       = match _sort_by_unique_fields (heap w1) model model_objs unique_fields with
         | Raise e => (Raise e, w1)
         | Ok sorted_objs =>
             match _get_update_fields model update_fields
                     (Some (default [] exclude ++ unique_fields)) with
             | Raise e => (Raise e, w1)
             | Ok fields_ =>
                 match sorted_objs with
                 | [] => (Ok (if truthy returning then Some [] else None), w1)
                 | _ :: _ =>
                     match _get_upsert_sql (heap w1) model sorted_objs unique_fields
                             fields_ returning ignore_unchanged with
                     | Raise e => (Raise e, w1)
                     | Ok (sql, sql_args) =>
                         match _prep_sql_args sql_args with
                         | Raise e => (Raise e, w1)
                         | Ok sql_args =>
                             (Ok (if truthy returning
                                  then Some (upserted_rows cursor sql sql_args)
                                  else None),
                              after_execute w1 sql sql_args)
                         end
                     end
                 end
             end
         end.
Proof.
  destruct (_fill_auto_fields_run model model_objs w) as (w1 & Hfill & _).
  exists w1. split; [exact Hfill|].
  unfold _upsert, mbind, M_bind at 1. rewrite Hfill.
  unfold M_bind, get_heap, lift, mret, M_ret, execute, after_execute, upserted_rows.
  destruct (_sort_by_unique_fields _ _ _ _) as [sorted_objs|e]; [|reflexivity].
  destruct (_get_update_fields _ _ _) as [fields_|e]; [|reflexivity].
  destruct sorted_objs as [|o sorted_objs]; [reflexivity|].
  destruct (_get_upsert_sql _ _ _ _ _ _ _) as [[sql sql_args]|e]; [|reflexivity].
  destruct (_prep_sql_args sql_args) as [args|e]; reflexivity.
Qed.

Lemma _update_run (cursor : Cursor) (model : Model) (model_objs : list loc)
    (update_fields : option (list update_field)) (exclude : option (list string))
    (returning : returning_arg) (ignore_unchanged : bool) (w : World) :
  _update cursor model model_objs update_fields exclude returning ignore_unchanged w
  = match _get_update_fields model update_fields exclude with
    | Raise e => (Raise e, w)
    | Ok fields_ =>
    match columns_of model fields_ with
    | Raise e => (Raise e, w)
    | Ok update_db_cols =>
    match sorted_by_pk (heap w) model model_objs with
    | Raise e => (Raise e, w)
    | Ok sorted_objs =>
    match pk model with
    | None =>
        (Raise (ValueError "Model must have a primary key to perform a bulk update."), w)
    | Some pk_field =>
    let value_fields := Str (attname pk_field) :: fields_ in
    match mapM (update_row_values (heap w) model value_fields) sorted_objs with
    | Raise e => (Raise e, w)
    | Ok row_values =>
    if (length row_values =? 0)%nat || (length fields_ =? 0)%nat then (Ok None, w)
    else
    match db_types_of model value_fields with
    | Raise e => (Raise e, w)
    | Ok db_types =>
    match columns_of model value_fields with
    | Raise e => (Raise e, w)
    | Ok value_field_cols =>
    match _get_update_fields_sql model fields_ "new_values" ignore_unchanged with
    | Raise e => (Raise e, w)
    | Ok (update_fields_sql, ignore_unchanged_sql) =>
        let update_sql :=
          update_statement (_quote (db_table model)) (_quote (column pk_field))
            "new_values" update_fields_sql (update_values_sql db_types row_values)
            (join ", " (map _quote value_field_cols)) (and_clause ignore_unchanged_sql)
            (_get_returning_sql returning model false) in
        match _prep_sql_args (concat row_values) with
        | Raise e => (Raise e, w)
        | Ok update_sql_params =>
            (Ok (if truthy returning
                 then Some (updated_rows cursor update_sql update_sql_params) else None),
             after_execute w update_sql update_sql_params)
        end
    end end end end end end end end.
Proof.
  unfold _update, mbind, M_bind, get_heap, lift, mret, M_ret, execute, raise,
    after_execute, updated_rows, db_types_of, and_clause.
  destruct (_get_update_fields _ _ _) as [fields_|e]; [|reflexivity].
  destruct (columns_of model fields_) as [update_db_cols|e]; [|reflexivity].
  destruct (sorted_by_pk _ _ _) as [sorted_objs|e]; [|reflexivity].
  destruct (pk model) as [pk_field|]; [|reflexivity].
  destruct (mapM (update_row_values _ _ _) sorted_objs) as [row_values|e]; [|reflexivity].
  destruct ((length row_values =? 0)%nat || (length fields_ =? 0)%nat); [reflexivity|].
  cbv zeta.
  destruct (mapM _ (Str (attname pk_field) :: fields_)) as [db_types|e]; [|reflexivity].
  destruct (columns_of model (Str (attname pk_field) :: fields_)) as [cols|e]; [|reflexivity].
  destruct (_get_update_fields_sql _ _ _ _) as [[set_sql ign_sql]|e]; [|reflexivity].
  destruct (_prep_sql_args (concat row_values)) as [args|e]; reflexivity.
Qed.

(** ** Empty batches *)

Lemma sorted_nil {A K : Type} (lt : K -> K -> option bool) (key : A -> K) :
  sorted lt key [] = Ok [].
Proof. reflexivity. Qed.

(** C3 (as amended): with an empty batch and [returning=True] neither
    operation hands a statement to the execution layer.  Unless its
    configuration makes it raise, bulk update returns [None]; upsert returns
    an empty [UpsertResult], an empty collection and not [None]. *)
Theorem empty_batch_outcome (cursor : Cursor) (model : Model)
    (unique_fields : list string) (update_fields : option (list update_field))
    (exclude : option (list string)) (ignore_unchanged : bool) (w : World) :
  let up := _upsert cursor model [] unique_fields update_fields exclude
              (ReturningBool true) ignore_unchanged w in
  let bu := _update cursor model [] update_fields exclude
              (ReturningBool true) ignore_unchanged w in
  (executed (snd up) = executed w
   /\ fst up = match _get_update_fields model update_fields
                       (Some (default [] exclude ++ unique_fields)) with
               | Ok _ => Ok (Some [])
               | Raise e => Raise e
               end)
  /\ (snd bu = w
      /\ fst bu = match _get_update_fields model update_fields exclude with
                  | Raise e => Raise e
                  | Ok fields_ =>
                      match columns_of model fields_ with
                      | Raise e => Raise e
                      | Ok _ =>
                          match pk model with
                          | None =>
                              Raise (ValueError
                                "Model must have a primary key to perform a bulk update.")
                          | Some _ => Ok None
                          end
                      end
                  end).
Proof.
  cbv zeta. split.
  - destruct (_upsert_run cursor model [] unique_fields update_fields exclude
                (ReturningBool true) ignore_unchanged w) as (w1 & Hfill & ->).
    destruct (_fill_auto_fields_run model [] w) as (w1' & Hfill' & He & _).
    rewrite Hfill in Hfill'. injection Hfill' as <-.
    unfold _sort_by_unique_fields. rewrite sorted_nil.
    destruct (_get_update_fields _ _ _); simpl; auto.
  - rewrite _update_run.
    destruct (_get_update_fields _ _ _) as [fields_|e]; [|split; reflexivity].
    destruct (columns_of model fields_) as [cols|e]; [|split; reflexivity].
    unfold sorted_by_pk.
    destruct (pk model) as [pk_field|]; [|split; reflexivity].
    rewrite sorted_nil. split; reflexivity.
Qed.

(** C3 as stated fails for upsert: the empty batch with [returning=True]
    yields the empty collection, which is not the "no result" signal. *)
Lemma upsert_empty_batch_returns_collection :
  fst (_upsert two_row_cursor account_model [] ["email"] None None
         (ReturningBool true) false account_world) = Ok (Some [])
  /\ fst (_upsert two_row_cursor account_model [] ["email"] None None
            (ReturningBool true) false account_world) <> Ok None.
Proof. split; [vm_compute; reflexivity | vm_compute; discriminate]. Qed.

(** ** Field selection *)

Lemma dict_of_acc_None {V : Type} (key : V -> string) (l : list V)
    (acc : gmap string V) (n : string) :
  foldl (fun acc v => <[key v := v]> acc) acc l !! n = None
  <-> acc !! n = None /\ forall v, v ∈ l -> key v <> n.
Proof.
  revert acc. induction l as [|x l IH]; intros acc; simpl.
  - split; [intros H; split; [exact H | intros v Hv; inversion Hv] | intros [H _]; exact H].
  - rewrite IH. rewrite lookup_insert_None. split.
    + intros [[Hacc Hx] Hl]. split; [exact Hacc|].
      intros v Hv. apply elem_of_cons in Hv as [->|Hv]; auto.
    + intros [Hacc Hl]. split; [split; [exact Hacc|]|].
      * apply Hl. left.
      * intros v Hv. apply Hl. now right.
Qed.

Lemma dict_of_None {V : Type} (key : V -> string) (l : list V) (n : string) :
  dict_of key l !! n = None <-> forall v, v ∈ l -> key v <> n.
Proof.
  unfold dict_of. rewrite dict_of_acc_None. rewrite lookup_empty. tauto.
Qed.

Lemma dict_of_acc_Some {V : Type} (key : V -> string) (l : list V)
    (acc : gmap string V) (n : string) (x : V) :
  foldl (fun acc v => <[key v := v]> acc) acc l !! n = Some x ->
  acc !! n = Some x \/ (x ∈ l /\ key x = n).
Proof.
  revert acc. induction l as [|y l IH]; intros acc; simpl.
  - auto.
  - intros H. apply IH in H as [H|[H1 H2]].
    + apply lookup_insert_Some in H as [[<- <-]|[_ H]].
      * right. split; [left | reflexivity].
      * now left.
    + right. split; [now right | exact H2].
Qed.

Lemma dict_of_Some {V : Type} (key : V -> string) (l : list V) (n : string) (x : V) :
  dict_of key l !! n = Some x -> x ∈ l /\ key x = n.
Proof.
  intros H. apply dict_of_acc_Some in H as [H|H]; [|exact H].
  rewrite lookup_empty in H. discriminate.
Qed.

Lemma update_fields_dict_None (model : Model) (n : string) :
  update_fields_dict model !! n = None <-> unknown_field model n.
Proof.
  unfold update_fields_dict, unknown_field.
  rewrite lookup_union_None, !dict_of_None. split.
  - intros [H1 H2] f Hf. split; auto.
  - intros H. split; intros f Hf; apply (H f Hf).
Qed.

Lemma update_fields_dict_Some (model : Model) (n : string) (f : Field) :
  update_fields_dict model !! n = Some f ->
  f ∈ _model_fields model /\ (name f = n \/ attname f = n).
Proof.
  unfold update_fields_dict. intros H.
  apply lookup_union_Some_raw in H as [H|[_ H]];
    apply dict_of_Some in H as [H1 H2]; auto.
Qed.

Lemma filter_result_Ok {A : Type} (p : A -> result bool) (l out : list A) (x : A) :
  filter_result p l = Ok out -> x ∈ out -> x ∈ l /\ p x = Ok true.
Proof.
  revert out. induction l as [|y l IH]; intros out; simpl.
  - intros [= <-] H. inversion H.
  - unfold mbind, result_bind, mret, result_ret.
    destruct (p y) as [b|e] eqn:Hy; [|discriminate].
    destruct (filter_result p l) as [rest|e]; [|discriminate].
    intros [= <-] Hx. destruct b.
    + apply elem_of_cons in Hx as [->|Hx].
      * split; [left | exact Hy].
      * destruct (IH rest eq_refl Hx) as [H1 H2]. split; [now right | exact H2].
    + destruct (IH rest eq_refl Hx) as [H1 H2]. split; [now right | exact H2].
Qed.

Lemma filter_result_Raise {A : Type} (p : A -> result bool) (l : list A) (x : A) (e : exn) :
  x ∈ l -> p x = Raise e ->
  exists y e', y ∈ l /\ p y = Raise e' /\ filter_result p l = Raise e'.
Proof.
  induction l as [|y l IH]; intros Hx Hp.
  - inversion Hx.
  - simpl. unfold mbind, result_bind, mret, result_ret.
    destruct (p y) as [b|e'] eqn:Hy.
    + apply elem_of_cons in Hx as [->|Hx]; [congruence|].
      destruct (IH Hx Hp) as (z & e' & Hz & Hpz & ->).
      exists z, e'. split; [now right | split; [exact Hpz | reflexivity]].
    + exists y, e'. split; [left | split; [exact Hy | reflexivity]].
Qed.

Lemma keep_update_field_Raise (fields_ : gmap string Field) (exclude : list string)
    (f : update_field) (e : exn) :
  keep_update_field fields_ exclude f = Raise e ->
  e = KeyError (str_of f) /\ (str_of f ∉ exclude) /\ fields_ !! str_of f = None.
Proof.
  unfold keep_update_field, in_list. case_bool_decide; [discriminate|].
  destruct (fields_ !! str_of f); [discriminate|]. intros [= <-]. auto.
Qed.

Lemma keep_update_field_unknown (fields_ : gmap string Field) (exclude : list string)
    (f : update_field) :
  str_of f ∉ exclude -> fields_ !! str_of f = None ->
  keep_update_field fields_ exclude f = Raise (KeyError (str_of f)).
Proof.
  intros H1 H2. unfold keep_update_field, in_list.
  rewrite bool_decide_eq_false_2 by exact H1. now rewrite H2.
Qed.

(** A requested name that is unknown and not excluded makes the selection
    raise [KeyError] for such a name. *)
Lemma _get_update_fields_unknown (model : Model) (to_update : list update_field)
    (exclude : option (list string)) (f : update_field) :
  f ∈ to_update -> unknown_field model (str_of f) -> str_of f ∉ (default [] exclude) ->
  exists k, _get_update_fields model (Some to_update) exclude = Raise (KeyError k)
            /\ unknown_field model k /\ k ∉ (default [] exclude).
Proof.
  intros Hf Hunk Hex. unfold _get_update_fields.
  fold (update_fields_dict model).
  destruct (filter_result_Raise
              (keep_update_field (update_fields_dict model) (default [] exclude))
              to_update f (KeyError (str_of f)) Hf) as (y & e' & Hy & Hpy & ->).
  { apply keep_update_field_unknown; [exact Hex|].
    now apply update_fields_dict_None. }
  apply keep_update_field_Raise in Hpy as (-> & H1 & H2).
  exists (str_of y). split; [reflexivity|]. split; [|exact H1].
  now apply update_fields_dict_None.
Qed.

(** ** Invalid calls *)

Lemma sorted_Raise {A K : Type} (lt : K -> K -> option bool) (key : A -> K)
    (l : list A) (e : exn) :
  sorted lt key l = Raise e -> e = TypeError.
Proof. unfold sorted. destruct (comparable lt key l); [discriminate | congruence]. Qed.

(** C4 (as amended): a requested update field name that is unknown to the
    model's field set and is not excluded (for upsert the exclusion list
    includes [unique_fields]) makes the operation raise before any statement
    reaches the execution layer: [KeyError] for such a name (upsert may raise
    [TypeError] from the row sequencer first).  A bulk update on a model
    without a primary key raises as well, with the world untouched. *)
Theorem invalid_call_raises_before_execution (cursor : Cursor) (model : Model)
    (model_objs : list loc) (unique_fields : list string)
    (to_update : list update_field) (update_fields : option (list update_field))
    (exclude : option (list string)) (returning : returning_arg)
    (ignore_unchanged : bool) (w : World) :
  ((exists f, f ∈ to_update /\ unknown_field model (str_of f)
              /\ (str_of f ∉ (default [] exclude ++ unique_fields))) ->
   let up := _upsert cursor model model_objs unique_fields (Some to_update) exclude
               returning ignore_unchanged w in
   exists e, fst up = Raise e /\ executed (snd up) = executed w
             /\ (e = TypeError \/ exists k, e = KeyError k /\ unknown_field model k))
  /\ ((exists f, f ∈ to_update /\ unknown_field model (str_of f)
                 /\ (str_of f ∉ (default [] exclude))) ->
      exists k, _update cursor model model_objs (Some to_update) exclude returning
                  ignore_unchanged w = (Raise (KeyError k), w)
                /\ unknown_field model k)
  /\ (pk model = None ->
      exists e, _update cursor model model_objs update_fields exclude returning
                  ignore_unchanged w = (Raise e, w)).
Proof.
  split; [|split].
  - intros (f & Hf & Hunk & Hex). cbv zeta.
    destruct (_upsert_run cursor model model_objs unique_fields (Some to_update) exclude
                returning ignore_unchanged w) as (w1 & Hfill & ->).
    destruct (_fill_auto_fields_run model model_objs w) as (w1' & Hfill' & He & _).
    rewrite Hfill in Hfill'. injection Hfill' as <-.
    destruct (_sort_by_unique_fields _ _ _ _) as [sorted_objs|e] eqn:Hsort.
    + destruct (_get_update_fields_unknown model to_update
                  (Some (default [] exclude ++ unique_fields)) f Hf Hunk Hex)
        as (k & -> & Hk & _).
      exists (KeyError k). simpl. split; [reflexivity|]. split; [exact He|].
      right. exists k. auto.
    + exists e. simpl. split; [reflexivity|]. split; [exact He|].
      left. unfold _sort_by_unique_fields in Hsort. now apply sorted_Raise in Hsort.
  - intros (f & Hf & Hunk & Hex). rewrite _update_run.
    destruct (_get_update_fields_unknown model to_update exclude f Hf Hunk Hex)
      as (k & -> & Hk & _).
    exists k. auto.
  - intros Hpk. rewrite _update_run, Hpk.
    destruct (_get_update_fields _ _ _) as [fields_|e]; [|eauto].
    destruct (columns_of model fields_) as [cols|e]; [|eauto].
    destruct (sorted_by_pk _ _ _) as [sorted_objs|e]; eauto.
Qed.

Lemma bogus_unknown : unknown_field account_model "bogus".
Proof.
  intros f Hf. apply list_elem_of_In in Hf. simpl in Hf.
  repeat (destruct Hf as [<-|Hf]; [split; discriminate|]). contradiction.
Defined.

Lemma invalid_call_raises_witness :
  (exists e,
     fst (_upsert two_row_cursor account_model [0%nat; 1%nat] ["email"]
            (Some [Str "bogus"]) None (ReturningBool true) false account_world) = Raise e
     /\ executed (snd (_upsert two_row_cursor account_model [0%nat; 1%nat] ["email"]
            (Some [Str "bogus"]) None (ReturningBool true) false account_world)) = []
     /\ (e = TypeError \/ exists k, e = KeyError k /\ unknown_field account_model k))
  /\ (exists e,
        _update two_row_cursor keyless_model [0%nat] None None (ReturningBool true)
          false account_world = (Raise e, account_world)).
Proof.
  split.
  - apply (invalid_call_raises_before_execution two_row_cursor account_model
             [0%nat; 1%nat] ["email"] [Str "bogus"] None None (ReturningBool true)
             false account_world).
    exists (Str "bogus"). split; [left|]. split; [exact bogus_unknown|].
    simpl. intros H. apply list_elem_of_In in H. simpl in H.
    destruct H as [H|[]]. discriminate.
  - apply (invalid_call_raises_before_execution two_row_cursor keyless_model
             [0%nat] [] [] None None (ReturningBool true) false account_world).
    reflexivity.
Defined.

(** C4 as stated fails: an unknown requested name that is also excluded
    raises nothing, and the statement is executed. *)
Lemma excluded_unknown_name_is_accepted :
  let up := _upsert two_row_cursor account_model [0%nat] ["email"]
              (Some [Str "bogus"]) (Some ["bogus"]) (ReturningBool false) false
              account_world in
  unknown_field account_model "bogus"
  /\ fst up = Ok None
  /\ length (executed (snd up)) = 1%nat.
Proof.
  cbv zeta. split; [exact bogus_unknown|]. split; vm_compute; reflexivity.
Qed.

(** ** The update-column set *)

Lemma keep_update_field_true (fields_ : gmap string Field) (exclude : list string)
    (f : update_field) :
  keep_update_field fields_ exclude f = Ok true ->
  (str_of f ∉ exclude)
  /\ exists fld, fields_ !! str_of f = Some fld
                 /\ auto_now_add fld = false /\ primary_key fld = false.
Proof.
  unfold keep_update_field, in_list. case_bool_decide as Hex; [discriminate|].
  destruct (fields_ !! str_of f) as [fld|]; [|discriminate].
  intros [= H]. apply andb_true_iff in H as [H1 H2].
  apply negb_true_iff in H1, H2. split; [exact Hex|]. exists fld. auto.
Qed.

Lemma _model_fields_spec (model : Model) (f : Field) :
  f ∈ _model_fields model <-> f ∈ fields model /\ generated f = false /\ concrete f = true.
Proof.
  unfold _model_fields. rewrite list_elem_of_filter.
  rewrite andb_true_iff, negb_true_iff. tauto.
Qed.

(** What every selected update field satisfies. *)
Lemma _get_update_fields_selected (model : Model) (to_update : option (list update_field))
    (exclude : option (list string)) (out : list update_field) (f : update_field) :
  _get_update_fields model to_update exclude = Ok out -> f ∈ out ->
  (str_of f ∉ (default [] exclude))
  /\ exists fld, update_fields_dict model !! str_of f = Some fld
                 /\ fld ∈ fields model
                 /\ (name fld = str_of f \/ attname fld = str_of f)
                 /\ primary_key fld = false /\ auto_now_add fld = false
                 /\ generated fld = false /\ concrete fld = true.
Proof.
  unfold _get_update_fields. fold (update_fields_dict model). intros Hout Hf.
  destruct (filter_result_Ok _ _ _ _ Hout Hf) as [_ Hkeep].
  apply keep_update_field_true in Hkeep as (Hex & fld & Hfld & Hadd & Hpk).
  split; [exact Hex|]. exists fld. split; [exact Hfld|].
  apply update_fields_dict_Some in Hfld as [Hin Hname].
  apply _model_fields_spec in Hin as (Hin & Hgen & Hconc). auto 10.
Qed.

(** C2: the code breaks the claim.  [_upsert] appends [unique_fields] to
    the exclusion list so that no column of the uniqueness constraint is
    updated; but the exclusion compares the names as given with the
    attribute names of the default list.  For a foreign key named in
    [unique_fields] by its field name, [author], the default update field is
    its attribute name, [author_id], and is not excluded: the column of the
    uniqueness constraint is among the update columns, and the executed
    statement assigns it in its SET list. *)
Lemma unique_column_among_update_columns :
  let selected := _get_update_fields account_model None (Some ([] ++ ["author"])) in
  let up := _upsert two_row_cursor account_model [0%nat; 1%nat] ["author"] None None
              (ReturningBool false) false account_world in
  selected = Ok [Str "email"; Str "count"; Str "author_id"; Str "updated_at"]
  /\ columns_of account_model (map Str ["author"]) = Ok ["author_id"]
  /\ (selected ≫= columns_of account_model)
     = Ok ["email"; "count"; "author_id"; "updated_at"]
  /\ map fst (executed (snd up))
     = [" INSERT INTO account ("
        +:+ _quote "email" +:+ ", " +:+ _quote "count" +:+ ", " +:+ _quote "author_id"
        +:+ ", " +:+ _quote "updated_at" +:+ ", " +:+ _quote "created_at"
        +:+ ") VALUES (%s::text, %s::integer, %s::integer, %s::timestamp, %s::timestamp),"
        +:+ " (%s, %s, %s, %s, %s) ON CONFLICT (" +:+ _quote "author_id"
        +:+ ") DO UPDATE SET "
        +:+ _quote "email" +:+ " = EXCLUDED." +:+ _quote "email" +:+ ", "
        +:+ _quote "count" +:+ " = EXCLUDED." +:+ _quote "count" +:+ ", "
        +:+ _quote "author_id" +:+ " = EXCLUDED." +:+ _quote "author_id" +:+ ", "
        +:+ _quote "updated_at" +:+ " = EXCLUDED." +:+ _quote "updated_at" +:+ "  "].
Proof. cbv zeta. repeat split; vm_compute; reflexivity. Qed.

(** ** Comprehensions that may raise *)

Lemma mapM_result_cons {A B : Type} (f : A -> result B) (x : A) (l : list A) :
  mapM f (x :: l)
  = match f x with
    | Raise e => Raise e
    | Ok y => match mapM f l with
              | Raise e => Raise e
              | Ok k => Ok (y :: k)
              end
    end.
Proof. reflexivity. Qed.

Lemma mapM_result_Ok {A B : Type} (f : A -> result B) (l : list A) (out : list B) :
  mapM f l = Ok out -> Forall2 (fun x y => f x = Ok y) l out.
Proof.
  revert out. induction l as [|x l IH]; intros out.
  - intros [= <-]. constructor.
  - rewrite mapM_result_cons. destruct (f x) as [y|e] eqn:Hx; [|discriminate].
    destruct (mapM f l) as [k|e]; [|discriminate].
    intros [= <-]. constructor; auto.
Qed.

Lemma mapM_result_length {A B : Type} (f : A -> result B) (l : list A) (out : list B) :
  mapM f l = Ok out -> length out = length l.
Proof. intros H. apply mapM_result_Ok in H. symmetry. eapply Forall2_length, H. Qed.

Lemma get_field_in (model : Model) (n : string) (f : Field) :
  get_field model n = Ok f -> f ∈ fields model.
Proof.
  unfold get_field, forward_fields_map.
  destruct (foldl _ ∅ (fields model) !! n) as [g|] eqn:H; [|discriminate].
  intros [= <-].
  assert (forall l (acc : gmap string Field),
            foldl (fun acc f => <[attname f := f]> (<[name f := f]> acc)) acc l !! n = Some g ->
            acc !! n = Some g \/ g ∈ l) as Hgen.
  { clear. induction l as [|x l IH]; intros acc; simpl; [auto|].
    intros H. apply IH in H as [H|H]; [|right; now right].
    apply lookup_insert_Some in H as [[_ <-]|[_ H]]; [right; left|].
    apply lookup_insert_Some in H as [[_ <-]|[_ H]]; [right; left | now left]. }
  apply Hgen in H as [H|H]; [|exact H]. rewrite lookup_empty in H. discriminate.
Qed.

Lemma columns_of_length (model : Model) (fields_ : list update_field) (cols : list string) :
  columns_of model fields_ = Ok cols -> length cols = length fields_.
Proof. apply mapM_result_length. Qed.

Lemma columns_of_in (model : Model) (fields_ : list update_field) (cols : list string)
    (col : string) :
  columns_of model fields_ = Ok cols -> col ∈ cols ->
  exists f, f ∈ fields model /\ column f = col.
Proof.
  intros H Hcol. apply mapM_result_Ok in H.
  induction H as [|x y l k Hxy _ IH]; [inversion Hcol|].
  apply elem_of_cons in Hcol as [->|Hcol]; [|auto].
  unfold mbind, result_bind, mret, result_ret in Hxy.
  destruct (get_field model (str_of x)) as [f|e] eqn:Hf; [|discriminate].
  injection Hxy as <-. exists f. split; [|reflexivity]. eapply get_field_in, Hf.
Qed.

(** ** The SET list and the change predicate *)

Lemma _get_update_fields_sql_Ok (model : Model) (fields_ : list update_field)
    (alias : string) (ignore_unchanged : bool) (set_sql ignore_unchanged_sql : string) :
  _get_update_fields_sql model fields_ alias ignore_unchanged
    = Ok (set_sql, ignore_unchanged_sql) ->
  exists cols rhs,
    columns_of model fields_ = Ok cols
    /\ assign_expressions model (update_expressions_of fields_)
         (alias_references alias cols) = Ok rhs
    /\ set_sql = set_list cols rhs
    /\ ignore_unchanged_sql = change_predicate model ignore_unchanged cols rhs.
Proof.
  unfold _get_update_fields_sql, mbind, result_bind, mret, result_ret.
  destruct (columns_of model fields_) as [cols|e]; [|discriminate].
  fold (update_expressions_of fields_). fold (alias_references alias cols).
  destruct (assign_expressions _ _ _) as [rhs|e] eqn:Hrhs; [|discriminate].
  intros [= <- <-]. exists cols, rhs. repeat split; auto.
Qed.

Lemma _get_upsert_sql_Ok (h : gmap nat (gmap string value)) (model : Model)
    (model_objs : list loc) (unique_fields : list string)
    (update_fields : list update_field) (returning : returning_arg)
    (ignore_unchanged : bool) (sql : string) (sql_args : list value) :
  _get_upsert_sql h model model_objs unique_fields update_fields returning
    ignore_unchanged = Ok (sql, sql_args) ->
  exists unique_db_cols cols rhs,
    columns_of model (map Str unique_fields) = Ok unique_db_cols
    /\ columns_of model update_fields = Ok cols
    /\ assign_expressions model (update_expressions_of update_fields)
         (alias_references "EXCLUDED" cols) = Ok rhs
    /\ sql = upsert_statement (db_table model)
               (join ", " (map _quote (map column (insert_fields model unique_fields))))
               (join ", " (fst (_get_values_for_rows h model_objs
                                  (insert_fields model unique_fields))))
               (join ", " (map _quote unique_db_cols))
               (on_conflict cols (set_list cols rhs)
                  (where_clause (change_predicate model ignore_unchanged cols rhs)))
               (_get_returning_sql returning model true)
    /\ sql_args = snd (_get_values_for_rows h model_objs
                         (insert_fields model unique_fields)).
Proof.
  unfold _get_upsert_sql, mbind, result_bind, mret, result_ret.
  destruct (columns_of model (map Str unique_fields)) as [unique_db_cols|e];
    [|discriminate].
  destruct (columns_of model update_fields) as [cols|e] eqn:Hcols; [|discriminate].
  destruct (_get_values_for_rows _ _ _) as [row_values args].
  destruct (_get_update_fields_sql _ _ _ _) as [[set_sql ign_sql]|e] eqn:Hset;
    [|discriminate].
  apply _get_update_fields_sql_Ok in Hset as (cols' & rhs & Hcols' & Hrhs & -> & ->).
  rewrite Hcols in Hcols'. injection Hcols' as <-.
  intros [= <- <-]. exists unique_db_cols, cols, rhs. repeat split; auto.
Qed.

(** ** The conflict arm *)

Lemma do_update_is_not_do_nothing (s : string) : "DO UPDATE SET " +:+ s <> "DO NOTHING".
Proof. rewrite !app_cons. discriminate. Qed.

(** C5: the text of every compiled upsert statement is the INSERT with its
    VALUES groups, the conflict target, the conflict arm and the RETURNING
    clause; the conflict arm is [DO NOTHING] exactly when the computed
    update-column set is empty; otherwise it is [DO UPDATE SET] followed by
    one assignment per update column, in order, to the quoted column (then
    the optional change predicate). *)
Theorem conflict_arm_by_update_columns (h : gmap nat (gmap string value))
    (model : Model) (model_objs : list loc) (unique_fields : list string)
    (update_fields : list update_field) (returning : returning_arg)
    (ignore_unchanged : bool) (sql : string) (sql_args : list value) :
  _get_upsert_sql h model model_objs unique_fields update_fields returning
    ignore_unchanged = Ok (sql, sql_args) ->
  exists unique_db_cols cols rhs arm,
    let where_sql := where_clause (change_predicate model ignore_unchanged cols rhs) in
    columns_of model (map Str unique_fields) = Ok unique_db_cols
    /\ columns_of model update_fields = Ok cols
    /\ length cols = length update_fields
    /\ sql = " INSERT INTO " +:+ db_table model
             +:+ " (" +:+ join ", " (map (fun f => _quote (column f))
                                       (insert_fields model unique_fields))
             +:+ ")"
             +:+ " VALUES "
             +:+ join ", " (fst (_get_values_for_rows h model_objs
                                   (insert_fields model unique_fields)))
             +:+ " ON CONFLICT (" +:+ join ", " (map _quote unique_db_cols) +:+ ") "
             +:+ arm +:+ " " +:+ _get_returning_sql returning model true
    /\ (arm = "DO NOTHING" <-> update_fields = [])
    /\ (update_fields <> [] ->
        arm = "DO UPDATE SET "
              +:+ join ", " (map (fun col => _quote col +:+ " = "
                                   +:+ default EmptyString (dict_get col rhs)) cols)
              +:+ " " +:+ where_sql).
Proof.
  intros H.
  apply _get_upsert_sql_Ok in H as (ucols & cols & rhs & Hu & Hcols & Hrhs & -> & _).
  exists ucols, cols, rhs,
    (on_conflict cols (set_list cols rhs)
       (where_clause (change_predicate model ignore_unchanged cols rhs))).
  cbv zeta. split; [exact Hu|]. split; [exact Hcols|].
  pose proof (columns_of_length _ _ _ Hcols) as Hlen.
  split; [exact Hlen|]. split; [|split; [split|]].
  - unfold upsert_statement. rewrite map_map. reflexivity.
  - destruct cols as [|c cols]; simpl.
    + intros _. destruct update_fields; [reflexivity | discriminate].
    + intros Habs. exfalso. revert Habs. apply do_update_is_not_do_nothing.
  - intros ->. destruct cols; [reflexivity | discriminate].
  - intros Hne. destruct cols as [|c cols]; [|reflexivity].
    destruct update_fields; [congruence | discriminate].
Qed.

Lemma conflict_arm_witness :
  exists sql sql_args,
    _get_upsert_sql account_heap account_model [0%nat; 1%nat] ["email"]
      [Str "count"] (ReturningBool false) true = Ok (sql, sql_args)
    /\ exists unique_db_cols cols rhs arm,
         let where_sql := where_clause (change_predicate account_model true cols rhs) in
         columns_of account_model (map Str ["email"]) = Ok unique_db_cols
         /\ columns_of account_model [Str "count"] = Ok cols
         /\ length cols = length [Str "count"]
         /\ sql = " INSERT INTO " +:+ db_table account_model
                  +:+ " (" +:+ join ", " (map (fun f => _quote (column f))
                                            (insert_fields account_model ["email"]))
                  +:+ ")"
                  +:+ " VALUES "
                  +:+ join ", " (fst (_get_values_for_rows account_heap [0%nat; 1%nat]
                                        (insert_fields account_model ["email"])))
                  +:+ " ON CONFLICT (" +:+ join ", " (map _quote unique_db_cols) +:+ ") "
                  +:+ arm +:+ " "
                  +:+ _get_returning_sql (ReturningBool false) account_model true
         /\ (arm = "DO NOTHING" <-> [Str "count"] = [])
         /\ ([Str "count"] <> [] ->
             arm = "DO UPDATE SET "
                   +:+ join ", " (map (fun col => _quote col +:+ " = "
                                        +:+ default EmptyString (dict_get col rhs)) cols)
                   +:+ " " +:+ where_sql).
Proof.
  eexists _, _. split; [vm_compute; reflexivity|].
  eapply (conflict_arm_by_update_columns account_heap account_model [0%nat; 1%nat]
            ["email"] [Str "count"] (ReturningBool false) true).
  vm_compute. reflexivity.
Defined.

(** ** Argument preparation *)

Lemma _prep_sql_args_Ok (sql_args out : list value) :
  _prep_sql_args sql_args = Ok out ->
  out = sql_args /\ forall a, a ∈ sql_args -> forall sql, a <> VExpr sql.
Proof.
  unfold _prep_sql_args. revert out.
  induction sql_args as [|a sql_args IH]; intros out.
  - intros [= <-]. split; [reflexivity|]. intros a Ha. inversion Ha.
  - rewrite mapM_result_cons.
    destruct a; try discriminate;
      (destruct (mapM _ sql_args) as [k|e]; [|discriminate]; intros [= <-];
       destruct (IH k eq_refl) as [-> Hk]; split; [reflexivity|];
       intros b [->|Hb]%elem_of_cons; [discriminate | now apply Hk]).
Qed.

Lemma _prep_sql_args_Raise (sql_args : list value) (e : exn) :
  _prep_sql_args sql_args = Raise e ->
  e = NameError "LiteralValue" /\ exists sql, VExpr sql ∈ sql_args.
Proof.
  unfold _prep_sql_args.
  induction sql_args as [|a sql_args IH]; [discriminate|].
  rewrite mapM_result_cons.
  destruct a;
    try (destruct (mapM _ sql_args) as [k|e']; [discriminate|]; intros [= <-];
         destruct (IH eq_refl) as [-> [sql Hsql]]; split; [reflexivity|];
         exists sql; now right).
  intros [= <-]. split; [reflexivity|]. exists sql. left.
Qed.

Lemma _prep_sql_args_plain (sql_args : list value) :
  (forall a, a ∈ sql_args -> forall sql, a <> VExpr sql) ->
  _prep_sql_args sql_args = Ok sql_args.
Proof.
  intros H. destruct (_prep_sql_args sql_args) as [out|e] eqn:E.
  - apply _prep_sql_args_Ok in E as [-> _]. reflexivity.
  - apply _prep_sql_args_Raise in E as [_ [sql Hsql]].
    exfalso. exact (H _ Hsql sql eq_refl).
Qed.

(** ** The world after an upsert, after a bulk update *)

Lemma _upsert_world (cursor : Cursor) (model : Model) (model_objs : list loc)
    (unique_fields : list string) (update_fields : option (list update_field))
    (exclude : option (list string)) (returning : returning_arg)
    (ignore_unchanged : bool) (w : World) :
  let up := _upsert cursor model model_objs unique_fields update_fields exclude
              returning ignore_unchanged w in
  clock (snd up) = clock w + 1
  /\ (forall (l : loc) (b : string),
        getattr (heap (snd up)) l b
        = if bool_decide (l ∈ model_objs /\ b ∈ auto_field_names model)
          then VTime (clock w) else getattr (heap w) l b)
  /\ (executed (snd up) = executed w
      \/ exists sorted_objs fields_ sql sql_args,
           _sort_by_unique_fields (heap (snd up)) model model_objs unique_fields
             = Ok sorted_objs
           /\ _get_update_fields model update_fields
                (Some (default [] exclude ++ unique_fields)) = Ok fields_
           /\ sorted_objs <> []
           /\ _get_upsert_sql (heap (snd up)) model sorted_objs unique_fields fields_
                returning ignore_unchanged = Ok (sql, sql_args)
           /\ _prep_sql_args sql_args = Ok sql_args
           /\ executed (snd up) = executed w ++ [(sql, sql_args)]
           /\ fst up = Ok (if truthy returning
                           then Some (upserted_rows cursor sql sql_args)
                           else None)).
Proof.
  cbv zeta.
  destruct (_upsert_run cursor model model_objs unique_fields update_fields exclude
              returning ignore_unchanged w) as (w1 & Hfill & ->).
  destruct (_fill_auto_fields_run model model_objs w) as (w1' & Hfill' & He & Hc & Hg).
  rewrite Hfill in Hfill'. injection Hfill' as <-.
  destruct (_sort_by_unique_fields _ _ _ _) as [sorted_objs|e] eqn:Hsort;
    [|simpl; auto].
  destruct (_get_update_fields _ _ _) as [fields_|e] eqn:Hsel; [|simpl; auto].
  destruct sorted_objs as [|o sorted_objs]; [simpl; auto|].
  destruct (_get_upsert_sql _ _ _ _ _ _ _) as [[sql sql_args]|e] eqn:Hsql;
    [|simpl; auto].
  destruct (_prep_sql_args sql_args) as [args|e] eqn:Hprep; [|simpl; auto].
  pose proof (_prep_sql_args_Ok _ _ Hprep) as [-> _].
  simpl. split; [exact Hc|]. split; [exact Hg|]. right.
  exists (o :: sorted_objs), fields_, sql, sql_args.
  rewrite He. repeat split; auto; discriminate.
Qed.

Lemma _update_world (cursor : Cursor) (model : Model) (model_objs : list loc)
    (update_fields : option (list update_field)) (exclude : option (list string))
    (returning : returning_arg) (ignore_unchanged : bool) (w : World) :
  let bu := _update cursor model model_objs update_fields exclude returning
              ignore_unchanged w in
  heap (snd bu) = heap w /\ clock (snd bu) = clock w
  /\ (executed (snd bu) = executed w
      \/ exists fields_ sorted_objs pk_field row_values db_types value_field_cols
                update_fields_sql ignore_unchanged_sql,
           let value_fields := Str (attname pk_field) :: fields_ in
           let update_sql :=
             update_statement (_quote (db_table model)) (_quote (column pk_field))
               "new_values" update_fields_sql (update_values_sql db_types row_values)
               (join ", " (map _quote value_field_cols)) (and_clause ignore_unchanged_sql)
               (_get_returning_sql returning model false) in
           _get_update_fields model update_fields exclude = Ok fields_
           /\ sorted_by_pk (heap w) model model_objs = Ok sorted_objs
           /\ pk model = Some pk_field
           /\ mapM (update_row_values (heap w) model value_fields) sorted_objs
              = Ok row_values
           /\ row_values <> [] /\ fields_ <> []
           /\ db_types_of model value_fields = Ok db_types
           /\ columns_of model value_fields = Ok value_field_cols
           /\ _get_update_fields_sql model fields_ "new_values" ignore_unchanged
              = Ok (update_fields_sql, ignore_unchanged_sql)
           /\ _prep_sql_args (concat row_values) = Ok (concat row_values)
           /\ executed (snd bu) = executed w ++ [(update_sql, concat row_values)]).
Proof.
  cbv zeta. rewrite _update_run.
  destruct (_get_update_fields _ _ _) as [fields_|e] eqn:Hsel; [|simpl; auto].
  destruct (columns_of model fields_) as [update_db_cols|e]; [|simpl; auto].
  destruct (sorted_by_pk _ _ _) as [sorted_objs|e] eqn:Hsort; [|simpl; auto].
  destruct (pk model) as [pk_field|] eqn:Hpk; [|simpl; auto].
  cbv zeta.
  destruct (mapM (update_row_values _ _ _) sorted_objs) as [row_values|e] eqn:Hrows;
    [|simpl; auto].
  destruct ((length row_values =? 0)%nat || (length fields_ =? 0)%nat) eqn:Hempty;
    [simpl; auto|].
  apply orb_false_iff in Hempty as [Hr Hf].
  apply Nat.eqb_neq in Hr, Hf.
  destruct (db_types_of _ _) as [db_types|e] eqn:Hty; [|simpl; auto].
  destruct (columns_of model (Str (attname pk_field) :: fields_)) as [cols|e] eqn:Hcols;
    [|simpl; auto].
  destruct (_get_update_fields_sql _ _ _ _) as [[set_sql ign_sql]|e] eqn:Hset;
    [|simpl; auto].
  destruct (_prep_sql_args (concat row_values)) as [args|e] eqn:Hprep; [|simpl; auto].
  pose proof (_prep_sql_args_Ok _ _ Hprep) as [-> _].
  simpl. split; [reflexivity|]. split; [reflexivity|]. right.
  exists fields_, sorted_objs, pk_field, row_values, db_types, cols, set_sql, ign_sql.
  repeat split; auto.
  - intros ->. apply Hr. reflexivity.
  - intros ->. apply Hf. reflexivity.
Qed.

(** ** Auto-timestamps *)

Lemma auto_field_names_spec (model : Model) (f : Field) :
  f ∈ _model_fields model -> auto_now f || auto_now_add f = true ->
  attname f ∈ auto_field_names model.
Proof.
  intros Hf Hauto. unfold auto_field_names.
  apply list_elem_of_fmap. exists f. split; [reflexivity|].
  apply list_elem_of_filter. auto.
Qed.

(** C10: an upsert reads the clock exactly once, and every auto_now and
    auto_now_add field of every record of the batch holds that one reading
    afterwards: no two records of the batch receive different timestamps. *)
Theorem upsert_single_timestamp (cursor : Cursor) (model : Model)
    (model_objs : list loc) (unique_fields : list string)
    (update_fields : option (list update_field)) (exclude : option (list string))
    (returning : returning_arg) (ignore_unchanged : bool) (w : World) :
  let up := _upsert cursor model model_objs unique_fields update_fields exclude
              returning ignore_unchanged w in
  clock (snd up) = clock w + 1
  /\ forall (obj : loc) (f : Field),
       obj ∈ model_objs -> f ∈ _model_fields model ->
       auto_now f || auto_now_add f = true ->
       getattr (heap (snd up)) obj (attname f) = VTime (clock w).
Proof.
  cbv zeta.
  destruct (_upsert_world cursor model model_objs unique_fields update_fields exclude
              returning ignore_unchanged w) as (Hc & Hg & _).
  split; [exact Hc|]. intros obj f Hobj Hf Hauto. rewrite Hg.
  rewrite bool_decide_eq_true_2; [reflexivity|].
  split; [exact Hobj | now apply auto_field_names_spec].
Qed.

Lemma upsert_single_timestamp_witness :
  let up := _upsert two_row_cursor account_model [0%nat; 1%nat] ["email"] None None
              (ReturningBool true) true account_world in
  clock (snd up) = 101
  /\ getattr (heap (snd up)) 0%nat "updated_at" = VTime 100
  /\ getattr (heap (snd up)) 1%nat "created_at" = VTime 100.
Proof.
  cbv zeta.
  destruct (upsert_single_timestamp two_row_cursor account_model [0%nat; 1%nat]
              ["email"] None None (ReturningBool true) true account_world)
    as [Hc Hg].
  split; [exact Hc|]. split.
  - apply (Hg 0%nat updated_at_field); [left | | reflexivity].
    apply list_elem_of_In. simpl. auto 10.
  - apply (Hg 1%nat created_at_field); [right; left | | reflexivity].
    apply list_elem_of_In. simpl. auto 10.
Defined.

(** C9 (as amended): an upsert changes the caller's records only by setting
    the auto_now / auto_now_add attributes of the records of the batch to
    the call's timestamp, every other attribute and every other instance
    reads as before, and the statement's arguments are extracted from the
    records as populated.  A bulk update does not change the records at
    all: it populates no auto-timestamp. *)
Theorem records_change_only_by_upsert_timestamps (cursor : Cursor) (model : Model)
    (model_objs : list loc) (unique_fields : list string)
    (update_fields : option (list update_field)) (exclude : option (list string))
    (returning : returning_arg) (ignore_unchanged : bool) (w : World) :
  let up := _upsert cursor model model_objs unique_fields update_fields exclude
              returning ignore_unchanged w in
  let bu := _update cursor model model_objs update_fields exclude returning
              ignore_unchanged w in
  (forall (l : loc) (b : string),
     getattr (heap (snd up)) l b
     = if bool_decide (l ∈ model_objs /\ b ∈ auto_field_names model)
       then VTime (clock w) else getattr (heap w) l b)
  /\ (forall sql sql_args,
        executed (snd up) = executed w ++ [(sql, sql_args)] ->
        exists sorted_objs,
          _sort_by_unique_fields (heap (snd up)) model model_objs unique_fields
            = Ok sorted_objs
          /\ _prep_sql_args
               (snd (_get_values_for_rows (heap (snd up)) sorted_objs
                       (insert_fields model unique_fields)))
             = Ok sql_args)
  /\ heap (snd bu) = heap w.
Proof.
  cbv zeta.
  destruct (_upsert_world cursor model model_objs unique_fields update_fields exclude
              returning ignore_unchanged w) as (_ & Hg & Hex).
  split; [exact Hg|]. split.
  - intros sql sql_args Hrun.
    destruct Hex as [Hsame|(sorted_objs & fields_ & sql' & args' & Hsort & _ & _ & Hsql
                            & Hprep & He & _)].
    + rewrite Hsame in Hrun. apply (f_equal length) in Hrun.
      rewrite length_app in Hrun. simpl in Hrun. lia.
    + rewrite He in Hrun. apply app_inv_head in Hrun. injection Hrun as -> <-.
      exists sorted_objs. split; [exact Hsort|].
      apply _get_upsert_sql_Ok in Hsql as (_ & _ & _ & _ & _ & _ & _ & Hargs).
      rewrite <- Hargs. exact Hprep.
  - apply (_update_world cursor model model_objs update_fields exclude returning
             ignore_unchanged w).
Qed.

Lemma records_change_witness :
  let up := _upsert two_row_cursor account_model [0%nat; 1%nat] ["email"] None None
              (ReturningBool true) true account_world in
  exists sorted_objs,
    _sort_by_unique_fields (heap (snd up)) account_model [0%nat; 1%nat] ["email"]
      = Ok sorted_objs
    /\ _prep_sql_args
         (snd (_get_values_for_rows (heap (snd up)) sorted_objs
                 (insert_fields account_model ["email"])))
       = Ok [VStr "a"; VInt 1; VNone; VTime 100; VTime 100;
             VStr "b"; VInt 5; VNone; VTime 100; VTime 100].
Proof.
  cbv zeta.
  eapply (proj1 (proj2 (records_change_only_by_upsert_timestamps two_row_cursor
                          account_model [0%nat; 1%nat] ["email"] None None
                          (ReturningBool true) true account_world))).
  vm_compute. reflexivity.
Defined.

(** C9 as stated fails for bulk update: the auto_now attribute of the record
    is not populated, and the value extracted for it is the unset one. *)
Lemma bulk_update_populates_no_timestamp :
  let bu := _update two_row_cursor account_model [0%nat] (Some [Str "updated_at"]) None
              (ReturningBool false) false account_world in
  auto_field_names account_model = ["updated_at"; "created_at"]
  /\ getattr (heap (snd bu)) 0%nat "updated_at" = VNone
  /\ map snd (executed (snd bu)) = [[VInt 2; VNone]].
Proof. cbv zeta. repeat split; vm_compute; reflexivity. Qed.

(** ** The result of an upsert *)

Lemma ends_with_app (prefix suffix : string) : ends_with suffix (prefix +:+ suffix) = true.
Proof.
  induction prefix as [|c prefix IH].
  - destruct suffix; simpl; [reflexivity|]. now rewrite Ascii.eqb_refl, String.eqb_refl.
  - rewrite app_cons. cbn [ends_with]. rewrite IH. apply orb_true_r.
Qed.

(** A RETURNING clause that the upsert renders ends with the status
    expression. *)
Lemma _get_returning_sql_status (returning : returning_arg) (model : Model) :
  truthy returning = true -> _model_fields model <> [] ->
  exists clause, _get_returning_sql returning model true = clause +:+ status_case_sql.
Proof.
  intros Ht Hne. unfold _get_returning_sql.
  destruct returning as [[|]|[|col cols]]; try discriminate.
  - destruct (_model_fields model) as [|f l]; [congruence|]. cbn [map].
    eexists. rewrite <- app_assoc_s. reflexivity.
  - eexists. rewrite <- app_assoc_s. reflexivity.
Qed.

(** The text of an upsert statement with a RETURNING clause ends with the
    status expression. *)
Lemma _get_upsert_sql_status (h : gmap nat (gmap string value)) (model : Model)
    (model_objs : list loc) (unique_fields : list string)
    (update_fields : list update_field) (returning : returning_arg)
    (ignore_unchanged : bool) (sql : string) (sql_args : list value) :
  truthy returning = true -> _model_fields model <> [] ->
  _get_upsert_sql h model model_objs unique_fields update_fields returning
    ignore_unchanged = Ok (sql, sql_args) ->
  ends_with status_case_sql sql = true.
Proof.
  intros Ht Hne H.
  apply _get_upsert_sql_Ok in H as (ucols & cols & rhs & _ & _ & _ & -> & _).
  destruct (_get_returning_sql_status returning model Ht Hne) as [clause ->].
  unfold upsert_statement. rewrite <- !app_assoc_s. apply ends_with_app.
Qed.

Lemma status_of_Ok (r : Row) (v : value) :
  status_of r = Ok v <-> dict_get "status_" r = Some v.
Proof. unfold status_of. destruct (dict_get "status_" r); split; congruence. Qed.

(** On tagged rows the two views do not raise: each is the filter of the
    rows by its tag. *)
Lemma created_of_tagged (self : list Row) :
  Forall tagged self ->
  created self = Ok (filter (fun r => dict_get "status_" r = Some (VStr "c")) self)
  /\ updated self = Ok (filter (fun r => dict_get "status_" r = Some (VStr "u")) self).
Proof.
  unfold created, updated. induction 1 as [|r self Ht _ [IHc IHu]]; [split; reflexivity|].
  cbn [filter_result]. rewrite IHc, IHu. unfold mbind, result_bind, mret, result_ret.
  destruct Ht as [[Hc|Hu] _].
  - rewrite Hc. apply status_of_Ok in Hc.
    rewrite bool_decide_eq_true_2 by reflexivity.
    rewrite bool_decide_eq_false_2 by discriminate.
    rewrite filter_cons_True by exact Hc.
    rewrite filter_cons_False by (rewrite Hc; discriminate). split; reflexivity.
  - rewrite Hu. apply status_of_Ok in Hu.
    rewrite bool_decide_eq_false_2 by discriminate.
    rewrite bool_decide_eq_true_2 by reflexivity.
    rewrite filter_cons_False by (rewrite Hu; discriminate).
    rewrite filter_cons_True by exact Hu. split; reflexivity.
Qed.

Lemma tagged_partition (self : list Row) :
  Forall tagged self ->
  filter (fun r => dict_get "status_" r = Some (VStr "c")) self
  ++ filter (fun r => dict_get "status_" r = Some (VStr "u")) self ≡ₚ self.
Proof.
  induction 1 as [|r self Ht _ IH]; [reflexivity|].
  destruct Ht as [[Hc|Hu] _].
  - apply status_of_Ok in Hc. rewrite filter_cons_True by exact Hc.
    rewrite filter_cons_False by (rewrite Hc; discriminate).
    simpl. now rewrite IH.
  - apply status_of_Ok in Hu. rewrite filter_cons_False by (rewrite Hu; discriminate).
    rewrite filter_cons_True by exact Hu.
    rewrite <- Permutation_middle. now rewrite IH.
Qed.

Lemma dict_get_app_absent {V : Type} (k : string) (d1 d2 : list (string * V)) :
  k ∉ map fst d1 -> dict_get k (d1 ++ d2) = dict_get k d2.
Proof.
  induction d1 as [|[k' v] d1 IH]; [reflexivity|]. simpl. intros H.
  destruct (String.eqb k' k) eqn:E.
  - apply String.eqb_eq in E. subst k'. exfalso. apply H. left.
  - apply IH. intros Hk. apply H. now right.
Qed.

(** The named tuple of a row whose last column is [status_] has the row's
    last value as its [status_]. *)
Lemma status_of_last (names : list string) (vals : list value) (v : value) :
  "status_" ∉ names -> length vals = length names ->
  status_of (zip (names ++ ["status_"]) (vals ++ [v])) = Ok v.
Proof.
  intros Hnames Hlen. unfold status_of.
  rewrite zip_with_app by (symmetry; exact Hlen).
  rewrite dict_get_app_absent.
  - simpl. reflexivity.
  - intros Hin. apply Hnames.
    apply list_elem_of_fmap in Hin as ([k w] & -> & Hin).
    apply (elem_of_zip_l _ _ _ _ Hin).
Qed.

(** The rows an executed upsert statement gives are tagged, when the backend
    evaluates the status expression. *)
Lemma upserted_rows_tagged (cursor : Cursor) (sql : string) (sql_args : list value) :
  evaluates_status cursor -> ends_with status_case_sql sql = true ->
  Forall tagged (upserted_rows cursor sql sql_args).
Proof.
  intros Hback Hend. unfold upserted_rows.
  destruct (backend cursor sql sql_args) as [rs|] eqn:Hrs; [|constructor].
  destruct (Hback sql sql_args rs Hrs Hend) as (names & Hdesc & Hnames & Hrows).
  unfold named_tuples. rewrite Hdesc.
  destruct (names ++ ["status_"]) as [|n0 ns] eqn:Hns; [constructor|]. rewrite <- Hns.
  apply Forall_fmap. eapply Forall_impl; [exact Hrows|].
  intros row (vals & st & -> & Hlen & Hst). cbv beta. unfold compose, tagged.
  rewrite (status_of_last names vals (VStr st) Hnames Hlen).
  split; [destruct Hst as [-> | ->]; auto|].
  intros [H1 H2]. congruence.
Qed.

(** C8: when the backend evaluates the status expression of the RETURNING
    clause, every row of an upsert result returned with [returning]
    requested carries a [status_] that is exactly one of created / updated;
    the two views of the result do not raise, the created view together with
    the updated view is the whole result (as a collection of rows), and no
    row is in both views.  The model has a concrete field (its primary
    key). *)
Theorem upsert_result_partition (cursor : Cursor) (model : Model)
    (model_objs : list loc) (unique_fields : list string)
    (update_fields : option (list update_field)) (exclude : option (list string))
    (returning : returning_arg) (ignore_unchanged : bool) (w : World)
    (self : list Row) :
  evaluates_status cursor ->
  _model_fields model <> [] ->
  fst (_upsert cursor model model_objs unique_fields update_fields exclude returning
         ignore_unchanged w) = Ok (Some self) ->
  Forall tagged self
  /\ exists created_rows updated_rows_,
       created self = Ok created_rows
       /\ updated self = Ok updated_rows_
       /\ created_rows ++ updated_rows_ ≡ₚ self
       /\ (forall r, r ∈ self <-> r ∈ created_rows \/ r ∈ updated_rows_)
       /\ (forall r, ~ (r ∈ created_rows /\ r ∈ updated_rows_)).
Proof.
  intros Hback Hne Hres.
  assert (Forall tagged self) as Htag.
  { destruct (_upsert_run cursor model model_objs unique_fields update_fields exclude
                returning ignore_unchanged w) as (w1 & _ & Hrun).
    rewrite Hrun in Hres. clear Hrun.
    destruct (_sort_by_unique_fields _ _ _ _) as [sorted_objs|e]; [|discriminate].
    destruct (_get_update_fields _ _ _) as [fields_|e]; [|discriminate].
    destruct sorted_objs as [|o sorted_objs].
    - simpl in Hres. destruct (truthy returning); [|discriminate].
      injection Hres as <-. constructor.
    - destruct (_get_upsert_sql _ _ _ _ _ _ _) as [[sql sql_args]|e] eqn:Hsql;
        [|discriminate].
      destruct (_prep_sql_args sql_args) as [args|e]; [|discriminate].
      simpl in Hres. destruct (truthy returning) eqn:Ht; [|discriminate].
      injection Hres as <-. apply upserted_rows_tagged; [exact Hback|].
      eapply _get_upsert_sql_status; eassumption. }
  split; [exact Htag|].
  destruct (created_of_tagged self Htag) as [Hc Hu].
  eexists _, _. split; [exact Hc|]. split; [exact Hu|].
  split; [now apply tagged_partition|]. split.
  - intros r. rewrite !list_elem_of_filter. split.
    + intros Hr. rewrite Forall_forall in Htag.
      destruct (Htag r Hr) as [[H1|H1] _]; apply status_of_Ok in H1; auto.
    + intros [[_ Hr]|[_ Hr]]; exact Hr.
  - intros r. rewrite !list_elem_of_filter.
    intros [[H1 _] [H2 _]]. rewrite H1 in H2. discriminate.
Qed.

Lemma two_row_cursor_evaluates_status : evaluates_status two_row_cursor.
Proof.
  intros sql sql_args rs Hrs Hend. unfold two_row_cursor in Hrs. cbn [backend] in Hrs.
  rewrite Hend in Hrs. injection Hrs as <-. cbn [description fetchall].
  exists ["id"]. split; [reflexivity|]. split.
  - intros H. apply list_elem_of_In in H. simpl in H. destruct H as [H|[]]. discriminate.
  - constructor; [|constructor; [|constructor]].
    + exists [VInt 1], "c". auto.
    + exists [VInt 2], "u". auto.
Defined.

Lemma upsert_result_partition_witness :
  let self := [ [("id", VInt 1); ("status_", VStr "c")];
                [("id", VInt 2); ("status_", VStr "u")] ] in
  Forall tagged self
  /\ exists created_rows updated_rows_,
       created self = Ok created_rows
       /\ updated self = Ok updated_rows_
       /\ created_rows ++ updated_rows_ ≡ₚ self
       /\ (forall r, r ∈ self <-> r ∈ created_rows \/ r ∈ updated_rows_)
       /\ (forall r, ~ (r ∈ created_rows /\ r ∈ updated_rows_)).
Proof.
  cbv zeta.
  apply (upsert_result_partition two_row_cursor account_model [0%nat; 1%nat]
           ["email"] None None (ReturningBool true) true account_world).
  - exact two_row_cursor_evaluates_status.
  - discriminate.
  - vm_compute. reflexivity.
Defined.

(** ** VALUES groups *)

Lemma values_group_first (all_fields : list Field) :
  values_group 0 all_fields = group (map (fun f => typed_placeholder (db_type f)) all_fields).
Proof. reflexivity. Qed.

Lemma values_group_next (i : nat) (all_fields : list Field) :
  values_group (S i) all_fields = group (repeat "%s" (length all_fields)).
Proof. reflexivity. Qed.

Lemma _get_values_for_rows_from_next (i : nat) (h : gmap nat (gmap string value))
    (model_objs : list loc) (all_fields : list Field) :
  fst (_get_values_for_rows_from (S i) h model_objs all_fields)
  = repeat (group (repeat "%s" (length all_fields))) (length model_objs).
Proof.
  revert i. induction model_objs as [|o objs IH]; intros i; [reflexivity|].
  cbn [_get_values_for_rows_from].
  specialize (IH (S i)).
  destruct (_get_values_for_rows_from (S (S i)) h objs all_fields) as [rv sa].
  simpl in IH. simpl. rewrite IH. now rewrite values_group_next.
Qed.

Lemma _get_values_for_rows_groups (h : gmap nat (gmap string value))
    (model_obj : loc) (model_objs : list loc) (all_fields : list Field) :
  fst (_get_values_for_rows h (model_obj :: model_objs) all_fields)
  = group (map (fun f => typed_placeholder (db_type f)) all_fields)
    :: repeat (group (repeat "%s" (length all_fields))) (length model_objs).
Proof.
  unfold _get_values_for_rows. cbn [_get_values_for_rows_from].
  pose proof (_get_values_for_rows_from_next 0 h model_objs all_fields) as H.
  destruct (_get_values_for_rows_from 1 h model_objs all_fields) as [rv sa].
  simpl in H. simpl. now rewrite H, values_group_first.
Qed.

Lemma imap_const {A B : Type} (b : B) (l : list A) :
  imap (fun _ _ => b) l = repeat b (length l).
Proof.
  induction l as [|x l IH]; [reflexivity|]. simpl. f_equal. exact IH.
Qed.

Lemma imap_lookup {A : Type} (g : string -> string) (l : list A) (tys : list string) :
  length l = length tys ->
  imap (fun i _ => g (default EmptyString (tys !! i))) l = map g tys.
Proof.
  revert tys. induction l as [|x l IH]; intros [|ty tys] Hlen; try discriminate.
  - reflexivity.
  - simpl. f_equal. injection Hlen as Hlen. rewrite <- (IH tys Hlen).
    apply imap_ext. reflexivity.
Qed.

(** The groups of the bulk update: in the first one the placeholder at
    index 0 is bare and the others are typed; all later groups are bare. *)
Lemma update_values_sql_groups (db_types : list string) (row : list value)
    (rows : list (list value)) :
  length row = length db_types ->
  Forall (fun r => length r = length db_types) rows ->
  db_types <> [] ->
  update_values_sql db_types (row :: rows)
  = join ", " (group ("%s" :: map typed_placeholder (tail db_types))
               :: repeat (group (repeat "%s" (length db_types))) (length rows)).
Proof.
  intros Hrow Hrows Hne. unfold update_values_sql. f_equal. cbn [imap]. f_equal.
  - unfold group. do 2 f_equal.
    destruct db_types as [|ty tys]; [congruence|].
    destruct row as [|v row]; [discriminate|].
    cbn [imap tail]. unfold join. f_equal. apply f_equal2; [reflexivity|].
    injection Hrow as Hrow. rewrite <- (imap_lookup typed_placeholder row tys Hrow).
    apply imap_ext. reflexivity.
  - induction Hrows as [|r rows Hr _ IH]; [reflexivity|].
    cbn [imap length repeat]. apply f_equal2.
    + unfold compose, group, join. cbv beta. do 3 f_equal.
      rewrite <- Hr. apply (imap_const "%s" r).
    + rewrite <- IH. apply imap_ext. reflexivity.
Qed.

Lemma update_row_values_length (h : gmap nat (gmap string value)) (model : Model)
    (value_fields : list update_field) (model_objs : list loc)
    (row_values : list (list value)) :
  mapM (update_row_values h model value_fields) model_objs = Ok row_values ->
  Forall (fun r => length r = length value_fields) row_values.
Proof.
  intros H. apply mapM_result_Ok in H.
  induction H as [|o r objs rows Hr _ IH]; constructor; [|exact IH].
  eapply mapM_result_length, Hr.
Qed.

(** ** The row sequencer *)

Section Sorting.

Context {A K : Type} (lt : K -> K -> option bool) (key : A -> K).

(** The law of [<] the sort relies on whatever the keys are. *)
Hypothesis lt_asym : forall a b, lt a b = Some true -> lt b a = Some false.

Lemma insert_by_perm (x : A) (l : list A) : insert_by lt key x l ≡ₚ x :: l.
Proof.
  induction l as [|y l IH]; [reflexivity|]. simpl.
  destruct (holds (lt (key y) (key x))); [|reflexivity].
  rewrite IH. apply Permutation_swap.
Qed.

Lemma sort_perm (l : list A) : foldr (insert_by lt key) [] l ≡ₚ l.
Proof.
  induction l as [|x l IH]; [reflexivity|]. simpl.
  rewrite insert_by_perm. now rewrite IH.
Qed.

Lemma comparable_cons (x : A) (l : list A) :
  comparable lt key (x :: l) = true <-> comparable_with lt key x l /\ comparable lt key l = true.
Proof.
  cbn [comparable]. rewrite andb_true_iff, forallb_forall.
  unfold comparable_with. rewrite Forall_forall.
  split; intros [H1 H2]; (split; [|exact H2]); intros y Hy.
  - apply andb_true_iff. apply H1. now apply list_elem_of_In.
  - apply andb_true_iff. apply H1. now apply list_elem_of_In.
Qed.

Lemma comparable_with_perm (x : A) (l l' : list A) :
  l ≡ₚ l' -> comparable_with lt key x l -> comparable_with lt key x l'.
Proof. intros Hp. unfold comparable_with. now rewrite Hp. Qed.

(** Whatever the keys, no record of the result is followed by a smaller
    one. *)
Lemma insert_by_locally_sorted (x : A) (l : list A) :
  comparable_with lt key x l ->
  Sorted (not_after lt key) l ->
  Sorted (not_after lt key) (insert_by lt key x l).
Proof.
  induction l as [|y l IH]; intros Hcmp Hs; simpl.
  - repeat constructor.
  - apply Forall_cons in Hcmp as [[_ Hyx] Hcmp].
    apply Sorted_inv in Hs as [Hs Hhd].
    destruct (lt (key y) (key x)) as [[|]|] eqn:E; simpl; [| |discriminate].
    + constructor; [exact (IH Hcmp Hs)|].
      destruct l as [|z l]; simpl.
      * constructor. unfold not_after. now apply lt_asym.
      * destruct (holds (lt (key z) (key x))).
        -- constructor. now inversion Hhd.
        -- constructor. unfold not_after. now apply lt_asym.
    + constructor; [constructor; assumption|]. constructor. exact E.
Qed.

Lemma sort_locally_sorted (l : list A) :
  comparable lt key l = true ->
  Sorted (not_after lt key) (foldr (insert_by lt key) [] l).
Proof.
  induction l as [|x l IH]; [constructor|].
  intros [Hx Hl]%comparable_cons. simpl.
  apply insert_by_locally_sorted; [|exact (IH Hl)].
  eapply comparable_with_perm; [symmetry; apply sort_perm | exact Hx].
Qed.

Lemma sort_of_locally_sorted (l : list A) :
  Sorted (not_after lt key) l -> foldr (insert_by lt key) [] l = l.
Proof.
  induction 1 as [|x l Hs IH Hhd]; [reflexivity|].
  simpl. rewrite IH. destruct Hhd as [|y l Hy]; [reflexivity|]. simpl.
  unfold not_after in Hy. now rewrite Hy.
Qed.







End Sorting.

Lemma sorted_length {A K : Type} (lt : K -> K -> option bool) (key : A -> K)
    (l out : list A) :
  sorted lt key l = Ok out -> length out = length l.
Proof.
  unfold sorted. destruct (comparable lt key l); [|discriminate].
  intros [= <-]. apply Permutation_length, sort_perm.
Qed.

(** *** The laws of Python's [<] on values and tuples *)

Lemma string_ltb_asym (a b : string) : String.ltb a b = true -> String.ltb b a = false.
Proof.
  unfold String.ltb. rewrite (String.compare_antisym a b).
  destruct (String.compare b a); simpl; congruence.
Qed.





Lemma Qltb_lt (p q : Q) : Qltb p q = true <-> (p < q)%Q.
Proof.
  unfold Qltb. rewrite negb_true_iff, <- not_true_iff_false, Qle_bool_iff.
  split; [apply Qnot_le_lt | apply Qlt_not_le].
Qed.

Lemma Qltb_ge (p q : Q) : Qltb p q = false <-> (q <= p)%Q.
Proof. unfold Qltb. rewrite negb_false_iff. apply Qle_bool_iff. Qed.


Lemma Qltb_asym (p q : Q) : Qltb p q = true -> Qltb q p = false.
Proof. rewrite Qltb_lt, Qltb_ge. apply Qlt_le_weak. Qed.





Lemma Qeq_bool_sym (p q : Q) : Qeq_bool p q = Qeq_bool q p.
Proof. apply eq_true_iff_eq. rewrite !Qeq_bool_iff. split; intros H; now symmetry. Qed.


Lemma float_lt_asym (x y : pyfloat) : float_lt x y = true -> float_lt y x = false.
Proof. destruct x, y; simpl; try congruence. apply Qltb_asym. Qed.

(** [<] is asymmetric on all values, NaN included. *)
Lemma py_lt_asym (a b : value) : py_lt a b = Some true -> py_lt b a = Some false.
Proof.
  destruct a, b; cbn [py_lt]; try discriminate; intros [= H]; f_equal;
    try (apply float_lt_asym; exact H).
  - apply Z.ltb_lt in H. apply Z.ltb_ge. lia.
  - now apply string_ltb_asym.
  - apply Z.ltb_lt in H. apply Z.ltb_ge. lia.
Qed.



(** The test that skips equal items is an equivalence, and [<] does not
    tell two equal items apart. *)
Lemma py_same_sym (x y : value) : py_same x y = py_same y x.
Proof.
  unfold py_same. destruct (number x), (number y);
    try apply Qeq_bool_sym; apply bool_decide_ext; split; congruence.
Qed.





Lemma tuple_lt_asym (a b : list value) :
  tuple_lt a b = Some true -> tuple_lt b a = Some false.
Proof.
  revert b. induction a as [|x a IH]; intros [|y b]; simpl; try congruence.
  rewrite (py_same_sym y x). destruct (py_same x y); [apply IH | apply py_lt_asym].
Qed.




(** *** The two sequencers *)




(** ** The first VALUES group *)

(** A comprehension that reads one attribute of each field found. *)
Lemma mapM_result_fmap {A B C : Type} (g : A -> result B) (h : B -> C) (l : list A) :
  mapM (fun x => y ← g x; mret (h y)) l
  = match mapM g l with
    | Ok ys => Ok (map h ys)
    | Raise e => Raise e
    end.
Proof.
  induction l as [|x l IH]; [reflexivity|].
  rewrite !mapM_result_cons, IH. unfold mbind, result_bind, mret, result_ret.
  destruct (g x) as [y|e]; [|reflexivity].
  destruct (mapM g l) as [ys|e]; reflexivity.
Qed.

(** The fields that [get_field] finds for the value fields give both the
    storage types and the columns. *)
Lemma value_fields_found (model : Model) (value_fields : list update_field)
    (db_types cols : list string) :
  db_types_of model value_fields = Ok db_types ->
  columns_of model value_fields = Ok cols ->
  exists flds,
    mapM (fun f => get_field model (str_of f)) value_fields = Ok flds
    /\ db_types = map db_type flds /\ cols = map column flds.
Proof.
  unfold db_types_of, columns_of.
  rewrite (mapM_result_fmap (fun f => get_field model (str_of f)) db_type).
  rewrite (mapM_result_fmap (fun f => get_field model (str_of f)) column).
  destruct (mapM _ value_fields) as [flds|e]; [|discriminate].
  intros [= <-] [= <-]. eauto.
Qed.

(** C1 (as amended): over a non-empty batch, the first VALUES group of a
    compiled upsert has a typed placeholder [%s::type] for each of its
    columns, the type being the storage type of the field whose column
    stands at that position of the column list; the first VALUES group of a
    compiled bulk update has a bare [%s] for its leading primary-key column
    and such a typed placeholder for each other column; every later group of
    either statement consists of bare [%s] placeholders. *)
Theorem first_values_group_casts :
  (forall (h : gmap nat (gmap string value)) (model : Model) (model_obj : loc)
          (model_objs : list loc) (unique_fields : list string)
          (update_fields : list update_field) (returning : returning_arg)
          (ignore_unchanged : bool) (sql : string) (sql_args : list value),
     _get_upsert_sql h model (model_obj :: model_objs) unique_fields update_fields
       returning ignore_unchanged = Ok (sql, sql_args) ->
     let all_fields := insert_fields model unique_fields in
     exists rest,
       sql = " INSERT INTO " +:+ db_table model
             +:+ " (" +:+ join ", " (map (fun f => _quote (column f)) all_fields) +:+ ")"
             +:+ " VALUES "
             +:+ join ", "
                   (group (map (fun f => typed_placeholder (db_type f)) all_fields)
                    :: repeat (group (repeat "%s" (length all_fields)))
                         (length model_objs))
             +:+ rest)
  /\ (forall (cursor : Cursor) (model : Model) (model_objs : list loc)
             (update_fields : option (list update_field))
             (exclude : option (list string)) (returning : returning_arg)
             (ignore_unchanged : bool) (w : World) (sql : string)
             (sql_args : list value),
        executed (snd (_update cursor model model_objs update_fields exclude
                         returning ignore_unchanged w))
        = executed w ++ [(sql, sql_args)] ->
        exists pk_field fields_ value_flds set_sql rest n,
          pk model = Some pk_field
          /\ _get_update_fields model update_fields exclude = Ok fields_
          /\ mapM (fun f => get_field model (str_of f))
               (Str (attname pk_field) :: fields_) = Ok value_flds
          /\ S n = length model_objs
          /\ sql = "UPDATE " +:+ _quote (db_table model) +:+ " "
                   +:+ "SET " +:+ set_sql +:+ " "
                   +:+ "FROM (VALUES "
                   +:+ join ", "
                         (group ("%s" :: map (fun f => typed_placeholder (db_type f))
                                           (tail value_flds))
                          :: repeat (group (repeat "%s" (length value_flds))) n)
                   +:+ ") AS " +:+ "new_values"
                   +:+ " (" +:+ join ", " (map (fun f => _quote (column f)) value_flds)
                   +:+ ") " +:+ rest).
Proof.
  split.
  - intros h model o objs unique_fields update_fields returning ign sql sql_args H.
    apply _get_upsert_sql_Ok in H as (ucols & cols & rhs & _ & _ & _ & -> & _).
    cbv zeta. rewrite _get_values_for_rows_groups, map_map.
    unfold upsert_statement. eexists. reflexivity.
  - intros cursor model objs update_fields exclude returning ign w sql sql_args Hrun.
    destruct (_update_world cursor model objs update_fields exclude returning ign w)
      as (_ & _ & [Hsame|Hex]).
    { rewrite Hsame in Hrun. apply (f_equal length) in Hrun.
      rewrite length_app in Hrun. simpl in Hrun. lia. }
    destruct Hex as (fields_ & sorted_objs & pk_field & row_values & db_types & cols
                     & set_sql & ign_sql & Hsel & Hsort & Hpk & Hrows & Hne & _
                     & Hty & Hcols & _ & _ & He).
    cbv zeta in Hrows, Hty, Hcols, He.
    rewrite He in Hrun. apply app_inv_head in Hrun. injection Hrun as <- _.
    pose proof (update_row_values_length _ _ _ _ _ Hrows) as Hlen.
    pose proof (mapM_result_length _ _ _ Hty) as Htylen.
    pose proof (mapM_result_length _ _ _ Hrows) as Hn.
    assert (length sorted_objs = length objs) as Hsorted.
    { unfold sorted_by_pk in Hsort. rewrite Hpk in Hsort.
      eapply sorted_length, Hsort. }
    destruct (value_fields_found _ _ _ _ Hty Hcols) as (flds & Hflds & -> & ->).
    destruct row_values as [|row rows]; [congruence|].
    apply Forall_cons in Hlen as [Hrow Hlen].
    exists pk_field, fields_, flds, set_sql.
    eexists _, (length rows).
    split; [exact Hpk|]. split; [exact Hsel|]. split; [exact Hflds|].
    split; [simpl in Hn; lia|].
    rewrite update_values_sql_groups.
    + unfold update_statement. rewrite !map_map, length_map.
      replace (tail (map db_type flds)) with (map db_type (tail flds))
        by (destruct flds; reflexivity).
      rewrite map_map. reflexivity.
    + rewrite Hrow, Htylen. reflexivity.
    + eapply Forall_impl; [exact Hlen|]. intros r Hr. cbv beta in Hr.
      rewrite Hr, Htylen. reflexivity.
    + intros Hnil. rewrite Hnil in Htylen. discriminate.
Qed.

Lemma first_values_group_witness :
  (exists sql sql_args,
     _get_upsert_sql account_heap account_model [0%nat; 1%nat] ["email"] [Str "count"]
       (ReturningBool false) false = Ok (sql, sql_args)
     /\ exists rest,
          sql = " INSERT INTO " +:+ db_table account_model
                +:+ " (" +:+ join ", " (map (fun f => _quote (column f))
                                          (insert_fields account_model ["email"]))
                +:+ ")"
                +:+ " VALUES "
                +:+ join ", "
                      (group (map (fun f => typed_placeholder (db_type f))
                                (insert_fields account_model ["email"]))
                       :: repeat (group (repeat "%s"
                                           (length (insert_fields account_model ["email"]))))
                            (length [1%nat]))
                +:+ rest)
  /\ (exists sql sql_args,
        executed (snd (_update two_row_cursor account_model [0%nat; 1%nat]
                         (Some [Str "count"]) None (ReturningBool false) false
                         account_world))
        = executed account_world ++ [(sql, sql_args)]
        /\ exists pk_field fields_ value_flds set_sql rest n,
             pk account_model = Some pk_field
             /\ _get_update_fields account_model (Some [Str "count"]) None = Ok fields_
             /\ mapM (fun f => get_field account_model (str_of f))
                  (Str (attname pk_field) :: fields_) = Ok value_flds
             /\ S n = length [0%nat; 1%nat]
             /\ sql = "UPDATE " +:+ _quote (db_table account_model) +:+ " "
                      +:+ "SET " +:+ set_sql +:+ " "
                      +:+ "FROM (VALUES "
                      +:+ join ", "
                            (group ("%s" :: map (fun f => typed_placeholder (db_type f))
                                              (tail value_flds))
                             :: repeat (group (repeat "%s" (length value_flds))) n)
                      +:+ ") AS " +:+ "new_values"
                      +:+ " (" +:+ join ", " (map (fun f => _quote (column f)) value_flds)
                      +:+ ") " +:+ rest).
Proof.
  destruct first_values_group_casts as [Hup Hbu]. split.
  - eexists _, _. split; [vm_compute; reflexivity|].
    eapply (Hup account_heap account_model 0%nat [1%nat] ["email"] [Str "count"]
              (ReturningBool false) false).
    vm_compute. reflexivity.
  - eexists _, _. split; [vm_compute; reflexivity|].
    eapply (Hbu two_row_cursor account_model [0%nat; 1%nat] (Some [Str "count"]) None
              (ReturningBool false) false account_world).
    vm_compute. reflexivity.
Defined.

(** C1 as stated fails for bulk update: in the first VALUES group the
    placeholder of the primary-key column carries no cast. *)
Lemma bulk_update_key_placeholder_is_bare :
  let bu := _update two_row_cursor account_model [0%nat; 1%nat] (Some [Str "count"])
              None (ReturningBool false) false account_world in
  map fst (executed (snd bu))
  = ["UPDATE " +:+ _quote "account"
     +:+ " SET " +:+ _quote "count" +:+ " = new_values." +:+ _quote "count"
     +:+ " FROM (VALUES (%s, %s::integer), (%s, %s)) AS new_values ("
     +:+ _quote "id" +:+ ", " +:+ _quote "count"
     +:+ ") WHERE " +:+ _quote "account" +:+ "." +:+ _quote "id"
     +:+ " = new_values." +:+ _quote "id" +:+ "  "]
  /\ db_types_of account_model [Str "id"; Str "count"] = Ok ["integer"; "integer"]
  /\ "(%s, %s::integer)" <> group (map typed_placeholder ["integer"; "integer"]).
Proof.
  cbv zeta. split; [vm_compute; reflexivity|].
  split; [vm_compute; reflexivity|]. vm_compute. discriminate.
Qed.

(** ** Placeholders and arguments *)

Lemma carries_free (s : string) : percent_free s = true -> carries 0 s.
Proof. intros H rest. now apply count_skip. Qed.

Lemma carries_placeholder : carries 1 "%s".
Proof. intros rest. reflexivity. Qed.

Lemma carries_app (a b : nat) (s t : string) :
  carries a s -> carries b t -> carries (a + b) (s +:+ t).
Proof. intros Hs Ht rest. rewrite app_assoc_s, Hs, Ht. lia. Qed.

Lemma carries_count (k : nat) (s : string) : carries k s -> count_placeholders s = k.
Proof. intros H. specialize (H EmptyString). rewrite app_nil_r_s in H. simpl in H. lia. Qed.

Lemma carries_join (k : nat) (sep : string) (parts : list string) :
  carries 0 sep -> Forall (carries k) parts ->
  carries (k * length parts) (join sep parts).
Proof.
  intros Hsep. induction 1 as [|p parts Hp Hparts IH].
  - rewrite Nat.mul_0_r. now apply carries_free.
  - destruct parts as [|q parts].
    + simpl. rewrite Nat.mul_1_r. exact Hp.
    + rewrite join_cons2.
      replace (k * length (p :: q :: parts))%nat
        with (k + (0 + k * length (q :: parts)))%nat by (simpl; lia).
      apply carries_app; [exact Hp|]. apply carries_app; [exact Hsep | exact IH].
Qed.

Lemma carries_typed (ty : string) :
  percent_free ty = true -> carries 1 (typed_placeholder ty).
Proof.
  intros H. change (typed_placeholder ty) with ("%s" +:+ "::" +:+ ty).
  apply (carries_app 1 0); [exact carries_placeholder|].
  apply carries_free. rewrite percent_free_app, H. reflexivity.
Qed.

Lemma carries_group (phs : list string) :
  Forall (carries 1) phs -> carries (length phs) (group phs).
Proof.
  intros H. unfold group.
  replace (length phs) with (0 + (1 * length phs + 0))%nat by lia.
  apply carries_app; [now apply carries_free|].
  apply carries_app; [|now apply carries_free].
  apply carries_join; [now apply carries_free | exact H].
Qed.

Lemma Forall_imap {A B : Type} (P : B -> Prop) (f : nat -> A -> B) (l : list A) :
  (forall i x, P (f i x)) -> Forall P (imap f l).
Proof.
  revert f. induction l as [|x l IH]; intros f Hf; simpl; constructor; [apply Hf|].
  apply IH. intros i y. apply Hf.
Qed.

Lemma percent_free_schema_field (model : Model) (f : Field) :
  percent_free_schema model = true -> f ∈ fields model ->
  percent_free (column f) = true /\ percent_free (db_type f) = true.
Proof.
  unfold percent_free_schema. intros [[_ H]%andb_true_iff _]%andb_true_iff Hf.
  rewrite forallb_forall in H. apply andb_true_iff, H. now apply list_elem_of_In.
Qed.

Lemma percent_free_schema_table (model : Model) :
  percent_free_schema model = true -> percent_free (db_table model) = true.
Proof. unfold percent_free_schema. now intros [[H _]%andb_true_iff _]%andb_true_iff. Qed.

Lemma percent_free_schema_pk (model : Model) (pk_field : Field) :
  percent_free_schema model = true -> pk model = Some pk_field ->
  percent_free (column pk_field) = true.
Proof.
  unfold percent_free_schema. intros [_ H]%andb_true_iff Hpk.
  rewrite Hpk in H. exact H.
Qed.

Lemma forallb_Forall_true {A : Type} (p : A -> bool) (l : list A) :
  forallb p l = true <-> Forall (fun x => p x = true) l.
Proof.
  rewrite forallb_forall, Forall_forall. split; intros H x Hx; apply H.
  - now apply list_elem_of_In.
  - now apply list_elem_of_In.
Qed.

Lemma columns_of_percent_free (model : Model) (fields_ : list update_field)
    (cols : list string) :
  percent_free_schema model = true -> columns_of model fields_ = Ok cols ->
  Forall (fun col => percent_free col = true) cols.
Proof.
  intros Hs Hcols. apply Forall_forall. intros col Hcol.
  destruct (columns_of_in _ _ _ _ Hcols Hcol) as (f & Hf & <-).
  apply (percent_free_schema_field model f Hs Hf).
Qed.

Lemma dict_set_values {V : Type} (P : V -> Prop) (k : string) (v : V)
    (d : list (string * V)) :
  P v -> Forall P (map snd d) -> Forall P (map snd (dict_set k v d)).
Proof.
  intros Hv. induction d as [|[k' v'] d IH]; simpl.
  - intros _. repeat constructor. exact Hv.
  - intros [Hv' Hd]%Forall_cons. destruct (String.eqb k' k); simpl; constructor; auto.
Qed.

Lemma dict_get_value {V : Type} (k : string) (d : list (string * V)) (v : V) :
  dict_get k d = Some v -> v ∈ map snd d.
Proof.
  induction d as [|[k' v'] d IH]; simpl; [discriminate|].
  destruct (String.eqb k' k).
  - intros [= ->]. left.
  - intros H. right. auto.
Qed.

Lemma alias_references_percent_free (alias : string) (cols : list string) :
  percent_free alias = true ->
  Forall (fun col => percent_free col = true) cols ->
  Forall (fun v => percent_free v = true) (map snd (alias_references alias cols)).
Proof.
  intros Ha Hcols. unfold alias_references.
  assert (forall acc : list (string * string),
            Forall (fun v => percent_free v = true) (map snd acc) ->
            Forall (fun v => percent_free v = true)
              (map snd (foldl (fun d col => dict_set col (alias +:+ "." +:+ _quote col) d)
                          acc cols))) as Hgen.
  { induction Hcols as [|col cols Hcol _ IH]; intros acc Hacc; [exact Hacc|].
    simpl. apply IH. apply dict_set_values; [|exact Hacc].
    rewrite !percent_free_app, Ha, percent_free_quote by exact Hcol. reflexivity. }
  apply Hgen. constructor.
Qed.

Lemma update_expressions_percent_free (fields_ : list update_field) :
  percent_free_expressions fields_ = true ->
  Forall (fun e => percent_free (as_sql_text e) = true)
    (map snd (update_expressions_of fields_)).
Proof.
  intros H. apply forallb_Forall_true in H. unfold update_expressions_of.
  assert (forall acc : list (string * Expression),
            Forall (fun e => percent_free (as_sql_text e) = true) (map snd acc) ->
            Forall (fun e => percent_free (as_sql_text e) = true)
              (map snd (foldl (fun d f => match expression_of f with
                                          | Some e => dict_set (str_of f) e d
                                          | None => d
                                          end) acc fields_))) as Hgen.
  { induction H as [|f fields_ Hf _ IH]; intros acc Hacc; [exact Hacc|].
    simpl. apply IH. destruct (expression_of f) as [e|]; [|exact Hacc].
    apply dict_set_values; [exact Hf | exact Hacc]. }
  apply Hgen. constructor.
Qed.

Lemma assign_expressions_percent_free (model : Model) (items : list (string * Expression))
    (d rhs : list (string * string)) :
  Forall (fun e => percent_free (as_sql_text e) = true) (map snd items) ->
  Forall (fun v => percent_free v = true) (map snd d) ->
  assign_expressions model items d = Ok rhs ->
  Forall (fun v => percent_free v = true) (map snd rhs).
Proof.
  revert d. induction items as [|[n e] items IH]; intros d Hitems Hd; simpl.
  - now intros [= <-].
  - apply Forall_cons in Hitems as [He Hitems].
    unfold mbind, result_bind. destruct (get_field model n) as [fld|err]; [|discriminate].
    apply IH; [exact Hitems|]. apply dict_set_values; [exact He | exact Hd].
Qed.

Lemma set_list_percent_free (cols : list string) (rhs : list (string * string)) :
  Forall (fun col => percent_free col = true) cols ->
  Forall (fun v => percent_free v = true) (map snd rhs) ->
  percent_free (set_list cols rhs) = true.
Proof.
  intros Hcols Hrhs. unfold set_list.
  apply percent_free_join; [reflexivity|].
  apply forallb_Forall_true, Forall_fmap.
  eapply Forall_impl; [exact Hcols|]. intros col Hcol. cbv beta. unfold compose.
  rewrite !percent_free_app, percent_free_quote by exact Hcol. simpl.
  destruct (dict_get col rhs) as [v|] eqn:Hv; [|reflexivity]. simpl.
  apply dict_get_value in Hv. rewrite Forall_forall in Hrhs. auto.
Qed.

Lemma change_predicate_percent_free (model : Model) (ignore_unchanged : bool)
    (cols : list string) (rhs : list (string * string)) :
  percent_free (db_table model) = true ->
  Forall (fun col => percent_free col = true) cols ->
  Forall (fun v => percent_free v = true) (map snd rhs) ->
  percent_free (change_predicate model ignore_unchanged cols rhs) = true.
Proof.
  intros Ht Hcols Hrhs. unfold change_predicate.
  destruct ignore_unchanged; [|reflexivity].
  destruct cols as [|c cols]; [reflexivity|].
  assert (percent_free
            (join ", " (map (fun col => _quote (db_table model) +:+ "." +:+ _quote col)
                          (c :: cols))) = true) as Hl.
  { apply percent_free_join; [reflexivity|].
    apply forallb_Forall_true, Forall_fmap.
    eapply Forall_impl; [exact Hcols|]. intros col Hcol. cbv beta. unfold compose.
    rewrite !percent_free_app, !percent_free_quote by assumption. reflexivity. }
  assert (percent_free (join ", " (map snd rhs)) = true) as Hr.
  { apply percent_free_join; [reflexivity|]. now apply forallb_Forall_true. }
  rewrite !percent_free_app, Hl, Hr. reflexivity.
Qed.

Lemma where_clause_percent_free (s : string) :
  percent_free s = true -> percent_free (where_clause s) = true.
Proof.
  intros H. unfold where_clause. destruct s; [reflexivity|].
  rewrite percent_free_app, H. reflexivity.
Qed.

Lemma and_clause_percent_free (s : string) :
  percent_free s = true -> percent_free (and_clause s) = true.
Proof.
  intros H. unfold and_clause. destruct s; [reflexivity|].
  rewrite percent_free_app, H. reflexivity.
Qed.

Lemma on_conflict_percent_free (cols : list string) (set_sql where_sql : string) :
  percent_free set_sql = true -> percent_free where_sql = true ->
  percent_free (on_conflict cols set_sql where_sql) = true.
Proof.
  intros H1 H2. unfold on_conflict. destruct cols; [reflexivity|].
  rewrite !percent_free_app, H1, H2. reflexivity.
Qed.

Lemma _get_returning_sql_percent_free (returning : returning_arg) (model : Model)
    (include_status : bool) :
  percent_free_schema model = true -> percent_free_returning returning = true ->
  percent_free (_get_returning_sql returning model include_status) = true.
Proof.
  intros Hs Hr. unfold _get_returning_sql.
  set (cols := match returning with
               | ReturningBool true => map column (_model_fields model)
               | ReturningBool false => []
               | ReturningList cols => cols
               end).
  assert (Forall (fun col => percent_free col = true) cols) as Hcols.
  { subst cols. destruct returning as [[|]|cols]; simpl in Hr.
    - apply Forall_fmap, Forall_forall. intros f Hf. cbv beta. unfold compose.
      apply _model_fields_spec in Hf as [Hf _].
      apply (percent_free_schema_field model f Hs Hf).
    - constructor.
    - now apply forallb_Forall_true. }
  destruct cols as [|c cols]; [reflexivity|].
  pose proof (percent_free_schema_table model Hs) as Ht.
  assert (percent_free
            (join ", " (map (fun field => _quote (db_table model) +:+ "." +:+ _quote field)
                          (c :: cols))) = true) as Hj.
  { apply percent_free_join; [reflexivity|].
    apply forallb_Forall_true, Forall_fmap.
    eapply Forall_impl; [exact Hcols|]. intros col Hcol. cbv beta. unfold compose.
    rewrite !percent_free_app, !percent_free_quote by assumption. reflexivity. }
  destruct include_status; rewrite !percent_free_app, Hj; reflexivity.
Qed.

Lemma _get_update_fields_expressions (model : Model)
    (to_update : option (list update_field)) (exclude : option (list string))
    (fields_ : list update_field) :
  percent_free_expressions (default [] to_update) = true ->
  _get_update_fields model to_update exclude = Ok fields_ ->
  percent_free_expressions fields_ = true.
Proof.
  intros Hpf Hsel. apply forallb_Forall_true, Forall_forall. intros f Hf.
  unfold _get_update_fields in Hsel.
  destruct (filter_result_Ok _ _ _ _ Hsel Hf) as [Hin _].
  destruct to_update as [l|]; simpl in Hpf.
  - apply forallb_Forall_true in Hpf. rewrite Forall_forall in Hpf. auto.
  - apply list_elem_of_fmap in Hin as (fld & -> & _). reflexivity.
Qed.

(** *** The statement templates *)

Lemma upsert_statement_count (n : nat) (table_name names_sql rows_sql unique_sql
    on_conflict_sql return_sql : string) :
  percent_free table_name = true -> percent_free names_sql = true ->
  percent_free unique_sql = true -> percent_free on_conflict_sql = true ->
  percent_free return_sql = true -> carries n rows_sql ->
  count_placeholders (upsert_statement table_name names_sql rows_sql unique_sql
                        on_conflict_sql return_sql) = n.
Proof.
  intros Ht Hn Hu Ho Hr Hrows. unfold upsert_statement.
  rewrite (count_skip " INSERT INTO ") by reflexivity.
  rewrite (count_skip table_name) by exact Ht.
  rewrite (count_skip " (") by reflexivity.
  rewrite (count_skip names_sql) by exact Hn.
  rewrite (count_skip ")") by reflexivity.
  rewrite (count_skip " VALUES ") by reflexivity.
  rewrite Hrows.
  rewrite count_percent_free; [lia|].
  rewrite !percent_free_app, Hu, Ho, Hr. reflexivity.
Qed.

Lemma update_statement_count (n : nat) (table pk_field alias update_fields_sql
    values_sql value_fields_sql ignore_unchanged_sql returning_sql : string) :
  percent_free table = true -> percent_free pk_field = true ->
  percent_free alias = true -> percent_free update_fields_sql = true ->
  percent_free value_fields_sql = true -> percent_free ignore_unchanged_sql = true ->
  percent_free returning_sql = true -> carries n values_sql ->
  count_placeholders (update_statement table pk_field alias update_fields_sql values_sql
                        value_fields_sql ignore_unchanged_sql returning_sql) = n.
Proof.
  intros Ht Hp Ha Hu Hv Hi Hr Hvalues. unfold update_statement.
  rewrite (count_skip "UPDATE ") by reflexivity.
  rewrite (count_skip table) by exact Ht.
  rewrite (count_skip " ") by reflexivity.
  rewrite (count_skip "SET ") by reflexivity.
  rewrite (count_skip update_fields_sql) by exact Hu.
  rewrite (count_skip " ") by reflexivity.
  rewrite (count_skip "FROM (VALUES ") by reflexivity.
  rewrite Hvalues.
  rewrite count_percent_free; [lia|].
  rewrite !percent_free_app, Ht, Hp, Ha, Hv, Hi, Hr. reflexivity.
Qed.

(** *** The VALUES groups and their arguments *)

Lemma values_group_carries (i : nat) (all_fields : list Field) :
  Forall (fun f => percent_free (db_type f) = true) all_fields ->
  carries (length all_fields) (values_group i all_fields).
Proof.
  intros H. destruct i as [|i].
  - rewrite values_group_first. rewrite <- (length_map (fun f => typed_placeholder (db_type f))).
    apply carries_group, Forall_fmap.
    eapply Forall_impl; [exact H|]. intros f Hf. now apply carries_typed.
  - rewrite values_group_next.
    rewrite <- (repeat_length "%s" (length all_fields)) at 1.
    apply carries_group, Forall_forall. intros p Hp.
    apply list_elem_of_In, repeat_spec in Hp. subst p. exact carries_placeholder.
Qed.

Lemma _get_values_for_rows_from_spec (i : nat) (h : gmap nat (gmap string value))
    (model_objs : list loc) (all_fields : list Field) :
  Forall (fun f => percent_free (db_type f) = true) all_fields ->
  Forall (carries (length all_fields))
    (fst (_get_values_for_rows_from i h model_objs all_fields))
  /\ length (fst (_get_values_for_rows_from i h model_objs all_fields))
     = length model_objs
  /\ length (snd (_get_values_for_rows_from i h model_objs all_fields))
     = (length all_fields * length model_objs)%nat.
Proof.
  intros Hty. revert i. induction model_objs as [|o objs IH]; intros i.
  - simpl. split; [constructor|]. split; [reflexivity | lia].
  - cbn [_get_values_for_rows_from]. specialize (IH (S i)).
    destruct (_get_values_for_rows_from (S i) h objs all_fields) as [rv sa].
    simpl in IH. destruct IH as (H1 & H2 & H3). simpl. split; [|split].
    + constructor; [now apply values_group_carries | exact H1].
    + now rewrite H2.
    + rewrite length_app, H3. unfold _get_values_for_row. rewrite length_map. lia.
Qed.

Lemma insert_fields_in (model : Model) (unique_fields : list string) (f : Field) :
  f ∈ insert_fields model unique_fields -> f ∈ fields model.
Proof.
  unfold insert_fields. intros [_ H]%list_elem_of_filter.
  now apply _model_fields_spec in H as [H _].
Qed.

(** Parity of the compiled upsert. *)
Lemma _get_upsert_sql_parity (h : gmap nat (gmap string value)) (model : Model)
    (model_objs : list loc) (unique_fields : list string)
    (update_fields : list update_field) (returning : returning_arg)
    (ignore_unchanged : bool) (sql : string) (sql_args : list value) :
  percent_free_schema model = true ->
  percent_free_expressions update_fields = true ->
  percent_free_returning returning = true ->
  _get_upsert_sql h model model_objs unique_fields update_fields returning
    ignore_unchanged = Ok (sql, sql_args) ->
  count_placeholders sql = length sql_args.
Proof.
  intros Hs He Hr H.
  apply _get_upsert_sql_Ok in H as (ucols & cols & rhs & Hu & Hcols & Hrhs & -> & ->).
  pose proof (percent_free_schema_table model Hs) as Ht.
  pose proof (columns_of_percent_free _ _ _ Hs Hu) as Hucols.
  pose proof (columns_of_percent_free _ _ _ Hs Hcols) as Hpcols.
  assert (Forall (fun v => percent_free v = true) (map snd rhs)) as Hprhs.
  { eapply assign_expressions_percent_free; [| |exact Hrhs].
    - now apply update_expressions_percent_free.
    - now apply alias_references_percent_free. }
  assert (Forall (fun f => percent_free (column f) = true
                           /\ percent_free (db_type f) = true)
            (insert_fields model unique_fields)) as Hfs.
  { apply Forall_forall. intros f Hf.
    apply (percent_free_schema_field model f Hs), (insert_fields_in _ _ _ Hf). }
  destruct (_get_values_for_rows_from_spec 0 h model_objs
              (insert_fields model unique_fields)) as (Hgroups & Hlen & Hargs).
  { eapply Forall_impl; [exact Hfs|]. now intros f [_ Hf]. }
  unfold _get_values_for_rows. rewrite Hargs.
  rewrite <- Hlen.
  apply upsert_statement_count; auto.
  - apply percent_free_join; [reflexivity|].
    apply forallb_Forall_true. rewrite !Forall_fmap.
    eapply Forall_impl; [exact Hfs|]. intros f [Hf _]. cbv beta. unfold compose.
    now apply percent_free_quote.
  - apply percent_free_join; [reflexivity|].
    apply forallb_Forall_true, Forall_fmap.
    eapply Forall_impl; [exact Hucols|]. intros c Hc. now apply percent_free_quote.
  - apply on_conflict_percent_free.
    + now apply set_list_percent_free.
    + now apply where_clause_percent_free, change_predicate_percent_free.
  - now apply _get_returning_sql_percent_free.
  - apply carries_join; [now apply carries_free | exact Hgroups].
Qed.

Lemma db_types_of_percent_free (model : Model) (value_fields : list update_field)
    (db_types : list string) :
  percent_free_schema model = true -> db_types_of model value_fields = Ok db_types ->
  Forall (fun ty => percent_free ty = true) db_types.
Proof.
  intros Hs H. apply mapM_result_Ok in H.
  induction H as [|x ty l k Hx _ IH]; constructor; [|exact IH].
  unfold mbind, result_bind, mret, result_ret in Hx.
  destruct (get_field model (str_of x)) as [f|e] eqn:Hf; [|discriminate].
  injection Hx as <-.
  apply (percent_free_schema_field model f Hs), (get_field_in _ _ _ Hf).
Qed.

Lemma update_values_sql_carries (n : nat) (db_types : list string)
    (row_values : list (list value)) :
  Forall (fun ty => percent_free ty = true) db_types ->
  Forall (fun r => length r = n) row_values ->
  carries (n * length row_values) (update_values_sql db_types row_values).
Proof.
  intros Hty Hrows. unfold update_values_sql.
  rewrite <- (length_imap (fun row_number row =>
    "(" +:+ join ", "
              (imap (fun i _ =>
                       if (row_number =? 0)%nat && negb (i =? 0)%nat
                       then "%s::" +:+ default EmptyString (db_types !! i)
                       else "%s") row)
    +:+ ")") row_values).
  apply carries_join; [now apply carries_free|].
  assert (forall F : nat -> list value -> string,
            (forall k r, length r = n -> carries n (F k r)) ->
            Forall (carries n) (imap F row_values)) as Hgen.
  { induction Hrows as [|r rows Hr _ IH]; intros F HF; simpl; constructor.
    - now apply HF.
    - apply IH. intros k r' Hr'. now apply HF. }
  apply Hgen. intros k r Hr.
  change (carries n (group (imap (fun i _ =>
            if (k =? 0)%nat && negb (i =? 0)%nat
            then "%s::" +:+ default EmptyString (db_types !! i)
            else "%s") r))).
  rewrite <- Hr.
  rewrite <- (length_imap (fun i _ =>
            if (k =? 0)%nat && negb (i =? 0)%nat
            then "%s::" +:+ default EmptyString (db_types !! i)
            else "%s") r) at 1.
  apply carries_group, Forall_imap. intros i _.
  destruct ((k =? 0)%nat && negb (i =? 0)%nat); [|exact carries_placeholder].
  apply (carries_typed (default EmptyString (db_types !! i))).
  destruct (db_types !! i) as [ty|] eqn:Hi; [|reflexivity]. simpl.
  rewrite Forall_forall in Hty. apply Hty. eapply list_elem_of_lookup_2, Hi.
Qed.

Lemma concat_length_uniform {A : Type} (n : nat) (rows : list (list A)) :
  Forall (fun r => length r = n) rows -> length (concat rows) = (n * length rows)%nat.
Proof.
  induction 1 as [|r rows Hr _ IH]; simpl; [lia|].
  rewrite length_app, IH, Hr. lia.
Qed.

(** *** Parity *)

(** C7 (as amended): when no percent sign occurs in the table name, the
    column names, the storage types, the rendered update expressions and the
    [returning] columns, every statement that either operation hands to the
    execution layer has as many [%s] placeholders in its text as arguments
    in its list. *)
Theorem placeholder_parity (cursor : Cursor) (model : Model) (model_objs : list loc)
    (unique_fields : list string) (update_fields : option (list update_field))
    (exclude : option (list string)) (returning : returning_arg)
    (ignore_unchanged : bool) (w : World) :
  percent_free_schema model = true ->
  percent_free_expressions (default [] update_fields) = true ->
  percent_free_returning returning = true ->
  let up := _upsert cursor model model_objs unique_fields update_fields exclude
              returning ignore_unchanged w in
  let bu := _update cursor model model_objs update_fields exclude returning
              ignore_unchanged w in
  (forall statement,
     statement ∈ executed (snd up) -> statement ∈ executed w \/ parity statement)
  /\ (forall statement,
        statement ∈ executed (snd bu) -> statement ∈ executed w \/ parity statement).
Proof.
  intros Hs He Hr. cbv zeta. split.
  - intros st Hst.
    destruct (_upsert_world cursor model model_objs unique_fields update_fields exclude
                returning ignore_unchanged w) as (_ & _ & [Hsame|Hex]).
    { left. now rewrite <- Hsame. }
    destruct Hex as (sorted_objs & fields_ & sql & sql_args & _ & Hsel & _ & Hsql & _
                     & Hlog & _).
    rewrite Hlog in Hst. apply elem_of_app in Hst as [Hst|Hst]; [now left|].
    right. apply list_elem_of_singleton in Hst as ->. unfold parity. cbn [fst snd].
    eapply _get_upsert_sql_parity; [exact Hs | | exact Hr | exact Hsql].
    eapply _get_update_fields_expressions; [exact He | exact Hsel].
  - intros st Hst.
    destruct (_update_world cursor model model_objs update_fields exclude returning
                ignore_unchanged w) as (_ & _ & [Hsame|Hex]).
    { left. now rewrite <- Hsame. }
    destruct Hex as (fields_ & sorted_objs & pk_field & row_values & db_types & cols
                     & set_sql & ign_sql & Hsel & _ & Hpk & Hrows & _ & _
                     & Hty & Hcols & Hset & _ & Hlog).
    cbv zeta in Hrows, Hty, Hcols, Hlog.
    rewrite Hlog in Hst. apply elem_of_app in Hst as [Hst|Hst]; [now left|].
    right. apply list_elem_of_singleton in Hst as ->. unfold parity. cbn [fst snd].
    pose proof (update_row_values_length _ _ _ _ _ Hrows) as Hlen.
    rewrite (concat_length_uniform _ _ Hlen).
    pose proof (percent_free_schema_table model Hs) as Ht.
    apply _get_update_fields_sql_Ok in Hset as (ucols & rhs & Hucols & Hrhs & -> & ->).
    pose proof (columns_of_percent_free _ _ _ Hs Hucols) as Hpcols.
    assert (Forall (fun v => percent_free v = true) (map snd rhs)) as Hprhs.
    { eapply assign_expressions_percent_free; [| |exact Hrhs].
      - apply update_expressions_percent_free.
        eapply _get_update_fields_expressions; [exact He | exact Hsel].
      - now apply alias_references_percent_free. }
    apply update_statement_count.
    + now apply percent_free_quote.
    + apply percent_free_quote, (percent_free_schema_pk model pk_field Hs Hpk).
    + reflexivity.
    + now apply set_list_percent_free.
    + apply percent_free_join; [reflexivity|].
      apply forallb_Forall_true, Forall_fmap.
      eapply Forall_impl; [exact (columns_of_percent_free _ _ _ Hs Hcols)|].
      intros c Hc. now apply percent_free_quote.
    + now apply and_clause_percent_free, change_predicate_percent_free.
    + now apply _get_returning_sql_percent_free.
    + apply update_values_sql_carries; [|exact Hlen].
      eapply db_types_of_percent_free; [exact Hs | exact Hty].
Qed.

Lemma placeholder_parity_witness :
  let up := _upsert two_row_cursor account_model [0%nat; 1%nat] ["email"]
              (Some [UpdateField "count" (Some {| as_sql_text := "account.count + 1" |})])
              None (ReturningBool true) true account_world in
  let bu := _update two_row_cursor account_model [0%nat; 1%nat]
              (Some [UpdateField "count" (Some {| as_sql_text := "account.count + 1" |})])
              None (ReturningBool true) true account_world in
  (forall statement,
     statement ∈ executed (snd up) ->
     statement ∈ executed account_world \/ parity statement)
  /\ (forall statement,
        statement ∈ executed (snd bu) ->
        statement ∈ executed account_world \/ parity statement).
Proof.
  cbv zeta.
  apply (placeholder_parity two_row_cursor account_model [0%nat; 1%nat] ["email"]
           (Some [UpdateField "count" (Some {| as_sql_text := "account.count + 1" |})])
           None (ReturningBool true) true account_world); reflexivity.
Defined.

(** C7 as stated fails: the engine writes names into the text as they are,
    so a [%s] inside a name counts as a placeholder of the statement. *)
Lemma percent_in_name_breaks_parity :
  let up := _upsert two_row_cursor percent_model [0%nat] ["id"] (Some []) None
              (ReturningBool false) false account_world in
  exists sql sql_args,
    executed (snd up) = [(sql, sql_args)]
    /\ count_placeholders sql = 3%nat
    /\ length sql_args = 2%nat.
Proof.
  cbv zeta. eexists _, _. split; [vm_compute; reflexivity|].
  split; vm_compute; reflexivity.
Qed.

(** ** Further properties of the two compilers *)

(** X1: a call of either operation hands at most one statement to the
    execution layer. *)
Theorem at_most_one_statement_per_call (cursor : Cursor) (model : Model)
    (model_objs : list loc) (unique_fields : list string)
    (update_fields : option (list update_field)) (exclude : option (list string))
    (returning : returning_arg) (ignore_unchanged : bool) (w : World) :
  let up := _upsert cursor model model_objs unique_fields update_fields exclude
              returning ignore_unchanged w in
  let bu := _update cursor model model_objs update_fields exclude returning
              ignore_unchanged w in
  (executed (snd up) = executed w
   \/ exists statement, executed (snd up) = executed w ++ [statement])
  /\ (executed (snd bu) = executed w
      \/ exists statement, executed (snd bu) = executed w ++ [statement]).
Proof.
  cbv zeta. split.
  - destruct (_upsert_world cursor model model_objs unique_fields update_fields exclude
                returning ignore_unchanged w) as (_ & _ & [H|H]); [now left|].
    destruct H as (? & ? & sql & sql_args & _ & _ & _ & _ & _ & H & _). right. eauto.
  - destruct (_update_world cursor model model_objs update_fields exclude returning
                ignore_unchanged w) as (_ & _ & [H|H]); [now left|].
    destruct H as (? & ? & ? & ? & ? & ? & ? & ? & H). cbv zeta in H.
    destruct H as (_ & _ & _ & _ & _ & _ & _ & _ & _ & _ & H). right. eauto.
Qed.

Lemma change_predicate_empty (model : Model) (ignore_unchanged : bool)
    (cols : list string) (rhs : list (string * string)) :
  change_predicate model ignore_unchanged cols rhs = EmptyString
  <-> ignore_unchanged = false \/ cols = [].
Proof.
  unfold change_predicate. destruct ignore_unchanged; [|tauto].
  destruct cols as [|c cols]; [tauto|]. split.
  - rewrite !app_cons. discriminate.
  - intros [H|H]; discriminate.
Qed.

(** X2: the change predicate that [_get_update_fields_sql] renders is empty
    exactly when "ignore unchanged" is off or there is no update field. *)
Theorem change_predicate_empty_iff (model : Model) (fields_ : list update_field)
    (alias : string) (ignore_unchanged : bool) (set_sql ignore_unchanged_sql : string) :
  _get_update_fields_sql model fields_ alias ignore_unchanged
    = Ok (set_sql, ignore_unchanged_sql) ->
  (ignore_unchanged_sql = EmptyString <-> ignore_unchanged = false \/ fields_ = []).
Proof.
  intros H. apply _get_update_fields_sql_Ok in H as (cols & rhs & Hcols & _ & _ & ->).
  rewrite change_predicate_empty. apply columns_of_length in Hcols.
  split; (intros [H|H]; [now left | right]).
  - subst cols. now destruct fields_.
  - subst fields_. now destruct cols.
Qed.

Lemma change_predicate_empty_witness :
  exists set_sql ignore_unchanged_sql,
    _get_update_fields_sql account_model [Str "count"] "EXCLUDED" true
      = Ok (set_sql, ignore_unchanged_sql)
    /\ (ignore_unchanged_sql = EmptyString <-> true = false \/ [Str "count"] = []).
Proof.
  eexists _, _. split; [vm_compute; reflexivity|].
  eapply (change_predicate_empty_iff account_model [Str "count"] "EXCLUDED" true).
  vm_compute. reflexivity.
Defined.

(** X3: an upsert that returns gives [None] exactly when [returning] is
    falsy ([False] or an empty list); a bulk update gives [None] whenever
    [returning] is falsy. *)
Theorem no_result_signal (cursor : Cursor) (model : Model) (model_objs : list loc)
    (unique_fields : list string) (update_fields : option (list update_field))
    (exclude : option (list string)) (returning : returning_arg)
    (ignore_unchanged : bool) (w : World) :
  let up := _upsert cursor model model_objs unique_fields update_fields exclude
              returning ignore_unchanged w in
  let bu := _update cursor model model_objs update_fields exclude returning
              ignore_unchanged w in
  (forall r, fst up = Ok r -> (r = None <-> truthy returning = false))
  /\ (forall r, fst bu = Ok r -> truthy returning = false -> r = None).
Proof.
  cbv zeta. split.
  - intros r.
    destruct (_upsert_run cursor model model_objs unique_fields update_fields exclude
                returning ignore_unchanged w) as (w1 & _ & ->).
    destruct (_sort_by_unique_fields _ _ _ _) as [sorted_objs|e]; [|discriminate].
    destruct (_get_update_fields _ _ _) as [fields_|e]; [|discriminate].
    destruct sorted_objs as [|o sorted_objs].
    + simpl. destruct (truthy returning); intros [= <-]; split; congruence.
    + destruct (_get_upsert_sql _ _ _ _ _ _ _) as [[sql sql_args]|e]; [|discriminate].
      destruct (_prep_sql_args sql_args) as [args|e]; [|discriminate].
      simpl. destruct (truthy returning); intros [= <-]; split; congruence.
  - intros r. rewrite _update_run.
    destruct (_get_update_fields _ _ _) as [fields_|e]; [|discriminate].
    destruct (columns_of model fields_) as [cols|e]; [|discriminate].
    destruct (sorted_by_pk _ _ _) as [sorted_objs|e]; [|discriminate].
    destruct (pk model) as [pk_field|]; [|discriminate].
    cbv zeta.
    destruct (mapM _ sorted_objs) as [row_values|e]; [|discriminate].
    destruct (_ || _); [simpl; congruence|].
    destruct (db_types_of _ _) as [db_types|e]; [|discriminate].
    destruct (columns_of _ _) as [vcols|e]; [|discriminate].
    destruct (_get_update_fields_sql _ _ _ _) as [[set_sql ign_sql]|e]; [|discriminate].
    destruct (_prep_sql_args (concat row_values)) as [args|e]; [|discriminate].
    simpl. intros [= <-] ->. reflexivity.
Qed.

(** X4: the compiled upsert carries one argument per record and insert
    column, and so does the list that [_prep_sql_args] hands to the
    execution layer when it does not raise. *)
Theorem upsert_argument_count (h : gmap nat (gmap string value)) (model : Model)
    (model_objs : list loc) (unique_fields : list string)
    (update_fields : list update_field) (returning : returning_arg)
    (ignore_unchanged : bool) (sql : string) (sql_args : list value) :
  _get_upsert_sql h model model_objs unique_fields update_fields returning
    ignore_unchanged = Ok (sql, sql_args) ->
  length sql_args = (length (insert_fields model unique_fields) * length model_objs)%nat
  /\ forall prepared,
       _prep_sql_args sql_args = Ok prepared ->
       length prepared
       = (length (insert_fields model unique_fields) * length model_objs)%nat.
Proof.
  intros H. apply _get_upsert_sql_Ok in H as (_ & _ & _ & _ & _ & _ & _ & ->).
  assert (length (snd (_get_values_for_rows h model_objs
                         (insert_fields model unique_fields)))
          = (length (insert_fields model unique_fields) * length model_objs)%nat) as Hlen.
  { unfold _get_values_for_rows. revert model_objs. generalize 0%nat.
    intros i objs. revert i. induction objs as [|o objs IH]; intros i.
    - simpl. lia.
    - cbn [_get_values_for_rows_from]. specialize (IH (S i)).
      destruct (_get_values_for_rows_from (S i) h objs _) as [rv sa]. simpl in *.
      rewrite length_app, IH. unfold _get_values_for_row. rewrite length_map. lia. }
  split; [exact Hlen|]. intros prepared Hprep.
  apply _prep_sql_args_Ok in Hprep as [-> _]. exact Hlen.
Qed.

Lemma upsert_argument_count_witness :
  exists sql sql_args,
    _get_upsert_sql account_heap account_model [0%nat; 1%nat] ["email"] [Str "count"]
      (ReturningBool false) false = Ok (sql, sql_args)
    /\ length sql_args
       = (length (insert_fields account_model ["email"]) * length [0%nat; 1%nat])%nat
    /\ forall prepared,
         _prep_sql_args sql_args = Ok prepared ->
         length prepared
         = (length (insert_fields account_model ["email"]) * length [0%nat; 1%nat])%nat.
Proof.
  eexists _, _. split; [vm_compute; reflexivity|].
  eapply (upsert_argument_count account_heap account_model [0%nat; 1%nat] ["email"]
            [Str "count"] (ReturningBool false) false).
  vm_compute. reflexivity.
Defined.

(** ** More on field selection *)

Lemma filter_result_sublist {A : Type} (p : A -> result bool) (l out : list A) :
  filter_result p l = Ok out -> out `sublist_of` l.
Proof.
  revert out. induction l as [|x l IH]; intros out; simpl.
  - intros [= <-]. constructor.
  - unfold mbind, result_bind, mret, result_ret.
    destruct (p x) as [b|e]; [|discriminate].
    destruct (filter_result p l) as [rest|e]; [|discriminate].
    intros [= <-]. destruct b; constructor; auto.
Qed.

Lemma filter_result_again {A : Type} (p : A -> result bool) (l out : list A) :
  filter_result p l = Ok out -> filter_result p out = Ok out.
Proof.
  revert out. induction l as [|x l IH]; intros out; simpl.
  - intros [= <-]. reflexivity.
  - unfold mbind, result_bind, mret, result_ret.
    destruct (p x) as [b|e] eqn:Hx; [|discriminate].
    destruct (filter_result p l) as [rest|e]; [|discriminate].
    intros [= <-]. specialize (IH rest eq_refl). destruct b; [|exact IH].
    simpl. unfold mbind, result_bind, mret, result_ret. now rewrite Hx, IH.
Qed.

Lemma filter_result_kept {A : Type} (p : A -> result bool) (l out : list A) (x : A) :
  filter_result p l = Ok out -> x ∈ l -> p x = Ok true -> x ∈ out.
Proof.
  revert out. induction l as [|y l IH]; intros out; simpl.
  - intros _ H. inversion H.
  - unfold mbind, result_bind, mret, result_ret.
    destruct (p y) as [b|e] eqn:Hy; [|discriminate].
    destruct (filter_result p l) as [rest|e]; [|discriminate].
    intros [= <-] Hx Hp. apply elem_of_cons in Hx as [->|Hx].
    + rewrite Hp in Hy. injection Hy as <-. left.
    + specialize (IH rest eq_refl Hx Hp). destruct b; [now right | exact IH].
Qed.

Lemma filter_result_total {A : Type} (p : A -> result bool) (l : list A) :
  (forall x, x ∈ l -> exists b, p x = Ok b) -> exists out, filter_result p l = Ok out.
Proof.
  induction l as [|x l IH]; intros H; simpl; [eauto|].
  unfold mbind, result_bind, mret, result_ret.
  destruct (H x) as [b ->]; [left|].
  destruct IH as [rest ->]; [intros y Hy; apply H; now right|]. eauto.
Qed.

(** X5: the selection of update fields keeps the caller's order and adds
    nothing: a successful selection from the requested list is a sublist of
    it, and it holds exactly the requested fields that are not excluded and
    resolve to a field that is neither auto_now_add nor a primary key. *)
Theorem selection_is_ordered_sublist (model : Model) (to_update : list update_field)
    (exclude : option (list string)) (out : list update_field) :
  _get_update_fields model (Some to_update) exclude = Ok out ->
  out `sublist_of` to_update
  /\ forall f, f ∈ out <->
       f ∈ to_update /\ (str_of f ∉ (default [] exclude))
       /\ exists fld, update_fields_dict model !! str_of f = Some fld
                      /\ auto_now_add fld = false /\ primary_key fld = false.
Proof.
  unfold _get_update_fields. intros H. split; [eapply filter_result_sublist, H|].
  intros f. split.
  - intros Hf. destruct (filter_result_Ok _ _ _ _ H Hf) as [Hin Hkeep].
    apply keep_update_field_true in Hkeep. tauto.
  - intros (Hin & Hex & fld & Hfld & Hadd & Hpk).
    eapply filter_result_kept; [exact H | exact Hin|].
    unfold keep_update_field, in_list.
    rewrite bool_decide_eq_false_2 by exact Hex. now rewrite Hfld, Hadd, Hpk.
Qed.

Lemma selection_sublist_witness :
  [Str "count"] `sublist_of` [Str "id"; Str "count"; Str "created_at"]
  /\ forall f, f ∈ [Str "count"] <->
       f ∈ [Str "id"; Str "count"; Str "created_at"]
       /\ (str_of f ∉ (default [] (@None (list string))))
       /\ exists fld, update_fields_dict account_model !! str_of f = Some fld
                      /\ auto_now_add fld = false /\ primary_key fld = false.
Proof.
  apply (selection_is_ordered_sublist account_model
           [Str "id"; Str "count"; Str "created_at"] None [Str "count"]).
  vm_compute. reflexivity.
Defined.

(** X6: selecting again from a selection changes nothing: the selected
    fields, requested once more with the same exclusions, are all kept. *)
Theorem selection_is_idempotent (model : Model) (to_update : option (list update_field))
    (exclude : option (list string)) (out : list update_field) :
  _get_update_fields model to_update exclude = Ok out ->
  _get_update_fields model (Some out) exclude = Ok out.
Proof. unfold _get_update_fields. apply filter_result_again. Qed.

Lemma selection_idempotent_witness :
  _get_update_fields account_model
    (Some [Str "email"; Str "count"; Str "author_id"; Str "updated_at"])
    (Some ["author"])
  = Ok [Str "email"; Str "count"; Str "author_id"; Str "updated_at"].
Proof.
  apply (selection_is_idempotent account_model None (Some ["author"])).
  vm_compute. reflexivity.
Defined.

Lemma update_fields_dict_attname (model : Model) (f : Field) :
  f ∈ _model_fields model -> is_Some (update_fields_dict model !! attname f).
Proof.
  intros Hf. unfold update_fields_dict.
  destruct (_ !! attname f) as [g|] eqn:H; [eauto|].
  apply lookup_union_None in H as [_ H].
  rewrite dict_of_None in H. exfalso. exact (H f Hf eq_refl).
Qed.

(** X7: with [update_fields=None] the selection never raises: every default
    candidate is the attribute name of a field of the model, so the lookup
    that raises [KeyError] for an unknown name always succeeds; the selected
    fields are plain attribute names of concrete, non-generated fields. *)
Theorem default_selection_never_raises (model : Model) (exclude : option (list string)) :
  exists out,
    _get_update_fields model None exclude = Ok out
    /\ forall f, f ∈ out ->
         exists fld, fld ∈ _model_fields model /\ f = Str (attname fld).
Proof.
  unfold _get_update_fields.
  destruct (filter_result_total
              (keep_update_field (update_fields_dict model) (default [] exclude))
              (map (fun f => Str (attname f)) (_model_fields model))) as [out Hout].
  { intros x Hx. apply list_elem_of_fmap in Hx as (fld & -> & Hfld).
    unfold keep_update_field. simpl. destruct (in_list _ _); [eauto|].
    destruct (update_fields_dict_attname model fld Hfld) as [g ->]. eauto. }
  exists out. split; [exact Hout|]. intros f Hf.
  destruct (filter_result_Ok _ _ _ _ Hout Hf) as [Hin _].
  apply list_elem_of_fmap in Hin as (fld & -> & Hfld). eauto.
Qed.

(** X8: with [update_fields=None] every field of the model that the
    dictionary of fields finds under its own attribute name, that is not a
    primary key, not auto_now_add and not excluded by that name, is
    selected: an auto_now field is among the default update fields. *)
Theorem default_selection_is_complete (model : Model) (exclude : option (list string))
    (out : list update_field) (fld : Field) :
  _get_update_fields model None exclude = Ok out ->
  fld ∈ _model_fields model ->
  update_fields_dict model !! attname fld = Some fld ->
  primary_key fld = false -> auto_now_add fld = false ->
  attname fld ∉ (default [] exclude) ->
  Str (attname fld) ∈ out.
Proof.
  unfold _get_update_fields. intros Hout Hfld Hdict Hpk Hadd Hex.
  eapply filter_result_kept; [exact Hout| |].
  - apply list_elem_of_fmap. eauto.
  - unfold keep_update_field, in_list. simpl.
    rewrite bool_decide_eq_false_2 by exact Hex. now rewrite Hdict, Hadd, Hpk.
Qed.

Lemma default_selection_complete_witness :
  Str (attname updated_at_field)
  ∈ [Str "email"; Str "count"; Str "author_id"; Str "updated_at"].
Proof.
  apply (default_selection_is_complete account_model (Some ["author"])
           [Str "email"; Str "count"; Str "author_id"; Str "updated_at"]
           updated_at_field).
  - vm_compute. reflexivity.
  - apply list_elem_of_In. simpl. auto 10.
  - vm_compute. reflexivity.
  - reflexivity.
  - reflexivity.
  - simpl. intros H. apply list_elem_of_In in H. simpl in H.
    destruct H as [H|[]]. discriminate.
Defined.

(** ** More on the row sequencer *)

Lemma comparable_perm {A K : Type} (lt : K -> K -> option bool) (key : A -> K)
    (l l' : list A) :
  l ≡ₚ l' -> comparable lt key l = true -> comparable lt key l' = true.
Proof.
  induction 1 as [|x l l' Hp IH|x y l|l l' l'' _ IH1 _ IH2]; auto.
  - rewrite !comparable_cons. intros [Hx Hl]. split; [|auto].
    eapply comparable_with_perm; eassumption.
  - rewrite !comparable_cons. unfold comparable_with.
    intros [[Hyx Hy]%Forall_cons [Hx Hl]]. repeat split; auto.
    constructor; [tauto | exact Hx].
Qed.

Lemma sorted_again {A K : Type} (lt : K -> K -> option bool) (key : A -> K)
    (l out : list A) :
  (forall a b, lt a b = Some true -> lt b a = Some false) ->
  sorted lt key l = Ok out -> sorted lt key out = Ok out.
Proof.
  intros Hasym. unfold sorted.
  destruct (comparable lt key l) eqn:Hcmp; [|discriminate]. intros [= <-].
  rewrite (comparable_perm lt key l _ (symmetry (sort_perm lt key l)) Hcmp).
  f_equal. apply sort_of_locally_sorted. now apply sort_locally_sorted.
Qed.

Lemma sorted_no_smaller {A K : Type} (lt : K -> K -> option bool) (key : A -> K)
    (l : list A) :
  (forall x y, lt (key y) (key x) = Some false) -> sorted lt key l = Ok l.
Proof.
  intros H. unfold sorted.
  assert (comparable lt key l = true) as ->.
  { induction l as [|x l IH]; [reflexivity|]. apply comparable_cons. split; [|exact IH].
    apply Forall_forall. intros y _. now rewrite !H. }
  f_equal. apply sort_of_locally_sorted.
  induction l as [|x l IH]; constructor; [exact IH|].
  destruct l; constructor. apply H.
Qed.

Lemma unique_db_fields_none (model : Model) (unique_fields : list string) :
  (forall f, f ∈ _model_fields model -> attname f ∉ unique_fields) ->
  unique_db_fields model unique_fields = [].
Proof.
  unfold unique_db_fields, in_list. intros H.
  induction (_model_fields model) as [|f l IH]; [reflexivity|].
  rewrite filter_cons_False.
  - apply IH. intros g Hg. apply H. now right.
  - rewrite bool_decide_eq_true. apply H. left.
Qed.

(** X9: sequencing is idempotent: a batch that either sequencer returned is
    returned unchanged when sequenced again (over the same records). *)
Theorem sequencing_is_idempotent (h : gmap nat (gmap string value)) (model : Model)
    (model_objs out : list loc) (unique_fields : list string) :
  (_sort_by_unique_fields h model model_objs unique_fields = Ok out ->
   _sort_by_unique_fields h model out unique_fields = Ok out)
  /\ (sorted_by_pk h model model_objs = Ok out ->
      sorted_by_pk h model out = Ok out).
Proof.
  split.
  - unfold _sort_by_unique_fields.
    apply sorted_again. exact tuple_lt_asym.
  - unfold sorted_by_pk. destruct (pk model) as [pk_field|].
    + apply sorted_again. exact py_lt_asym.
    + destruct model_objs; [|discriminate]. now intros [= <-].
Qed.

Lemma sequencing_idempotent_witness :
  _sort_by_unique_fields account_heap account_model [1%nat; 0%nat] ["email"]
  = Ok [1%nat; 0%nat]
  /\ sorted_by_pk account_heap account_model [1%nat; 0%nat] = Ok [1%nat; 0%nat].
Proof.
  destruct (sequencing_is_idempotent account_heap account_model [0%nat; 1%nat]
              [1%nat; 0%nat] ["email"]) as [Hup Hbu].
  split; [apply Hup | apply Hbu]; vm_compute; reflexivity.
Defined.

(** X10: the upsert's sequencer looks for the unique fields among the
    attribute names only.  When no concrete field of the model has its
    attribute name in [unique_fields] (a foreign key given by its field
    name, an unknown name), every record has the empty key and the batch is
    returned in the order it came in, whatever its values. *)
Theorem sequencer_keeps_order_without_key (h : gmap nat (gmap string value))
    (model : Model) (model_objs : list loc) (unique_fields : list string) :
  (forall f, f ∈ _model_fields model -> attname f ∉ unique_fields) ->
  _sort_by_unique_fields h model model_objs unique_fields = Ok model_objs.
Proof.
  intros H. unfold _sort_by_unique_fields.
  apply sorted_no_smaller. intros x y. unfold sort_key.
  rewrite (unique_db_fields_none model unique_fields H). reflexivity.
Qed.

Lemma sequencer_keeps_order_witness :
  _sort_by_unique_fields account_heap account_model [0%nat; 1%nat] ["author"]
  = Ok [0%nat; 1%nat].
Proof.
  apply (sequencer_keeps_order_without_key account_heap account_model [0%nat; 1%nat]
           ["author"]).
  intros f Hf. apply list_elem_of_In in Hf. simpl in Hf.
  repeat (destruct Hf as [<-|Hf];
          [intros H; apply list_elem_of_In in H; simpl in H;
           destruct H as [H|[]]; discriminate|]).
  contradiction.
Defined.

(** ** More on argument preparation *)

(** X11: [_prep_sql_args] never returns a changed list.  It hands the
    arguments on as they are exactly when none of them is an expression, and
    raises [NameError] (for the name [LiteralValue]) exactly when one is. *)
Theorem prepared_arguments (sql_args : list value) :
  (forall prepared, _prep_sql_args sql_args = Ok prepared -> prepared = sql_args)
  /\ ((forall a, a ∈ sql_args -> forall sql, a <> VExpr sql)
      <-> _prep_sql_args sql_args = Ok sql_args)
  /\ ((exists sql, VExpr sql ∈ sql_args)
      <-> _prep_sql_args sql_args = Raise (NameError "LiteralValue")).
Proof.
  split; [|split].
  - intros prepared H. now apply _prep_sql_args_Ok in H.
  - split; [apply _prep_sql_args_plain|]. intros H. now apply _prep_sql_args_Ok in H.
  - split.
    + intros [sql Hsql]. destruct (_prep_sql_args sql_args) as [out|e] eqn:E.
      * apply _prep_sql_args_Ok in E as [_ E]. exfalso. exact (E _ Hsql sql eq_refl).
      * apply _prep_sql_args_Raise in E as [-> _]. reflexivity.
    + intros H. now apply _prep_sql_args_Raise in H.
Qed.

(** ** More on the SET list *)

Lemma dict_get_set_eq {V : Type} (k : string) (v : V) (d : list (string * V)) :
  dict_get k (dict_set k v d) = Some v.
Proof.
  induction d as [|[k' v'] d IH]; simpl.
  - now rewrite String.eqb_refl.
  - destruct (String.eqb k' k) eqn:E; simpl; rewrite E; [reflexivity | exact IH].
Qed.

Lemma dict_get_set_ne {V : Type} (k k' : string) (v : V) (d : list (string * V)) :
  k <> k' -> dict_get k' (dict_set k v d) = dict_get k' d.
Proof.
  intros Hne. induction d as [|[k0 v0] d IH]; simpl.
  - apply String.eqb_neq in Hne. now rewrite Hne.
  - destruct (String.eqb k0 k) eqn:E; simpl.
    + apply String.eqb_eq in E. subst k0.
      apply String.eqb_neq in Hne. now rewrite Hne.
    + now rewrite IH.
Qed.

Lemma dict_set_keys_in {V : Type} (k : string) (v : V) (d : list (string * V)) :
  k ∈ map fst d -> map fst (dict_set k v d) = map fst d.
Proof.
  induction d as [|[k' v'] d IH]; simpl; [intros H; inversion H|].
  intros H. destruct (String.eqb k' k) eqn:E; simpl; [reflexivity|].
  f_equal. apply IH. apply elem_of_cons in H as [->|H]; [|exact H].
  rewrite String.eqb_refl in E. discriminate.
Qed.

Lemma dict_set_new {V : Type} (k : string) (v : V) (d : list (string * V)) :
  k ∉ map fst d -> dict_set k v d = d ++ [(k, v)].
Proof.
  induction d as [|[k' v'] d IH]; simpl; [reflexivity|].
  intros H. destruct (String.eqb k' k) eqn:E.
  - apply String.eqb_eq in E. subst k'. exfalso. apply H. left.
  - f_equal. apply IH. intros Hk. apply H. now right.
Qed.

Lemma dict_values_by_key {V : Type} `{Inhabited V} (d : list (string * V)) :
  NoDup (map fst d) ->
  map (fun k => default inhabitant (dict_get k d)) (map fst d) = map snd d.
Proof.
  induction d as [|[k v] d IH]; [reflexivity|]. simpl.
  intros [Hk Hd]%NoDup_cons. rewrite String.eqb_refl. simpl. f_equal.
  rewrite <- (IH Hd). apply map_ext_in. intros k' Hk'.
  destruct (String.eqb k k') eqn:E; [|reflexivity].
  apply String.eqb_eq in E. subst k'. exfalso. apply Hk. now apply list_elem_of_In.
Qed.

Lemma alias_references_distinct (alias : string) (cols : list string) :
  NoDup cols ->
  alias_references alias cols = map (fun col => (col, alias +:+ "." +:+ _quote col)) cols.
Proof.
  unfold alias_references.
  assert (forall acc : list (string * string),
            NoDup (map fst acc ++ cols) ->
            foldl (fun d col => dict_set col (alias +:+ "." +:+ _quote col) d) acc cols
            = acc ++ map (fun col => (col, alias +:+ "." +:+ _quote col)) cols) as Hgen.
  { induction cols as [|c cols IH]; intros acc Hnd; simpl.
    - now rewrite app_nil_r.
    - rewrite dict_set_new.
      + rewrite IH.
        * now rewrite <- app_assoc.
        * rewrite map_app. simpl. rewrite <- app_assoc. exact Hnd.
      + apply NoDup_app in Hnd as (_ & Hdisj & _). intros Hc.
        apply (Hdisj c Hc). left. }
  intros Hnd. apply (Hgen []). exact Hnd.
Qed.

(** The items of [update_expressions] come from the fields that carry an
    expression, and every such field has an item. *)
Lemma update_expressions_items (fields_ : list update_field) :
  (forall n e, (n, e) ∈ update_expressions_of fields_ ->
     exists f, f ∈ fields_ /\ str_of f = n /\ expression_of f = Some e)
  /\ (forall f e, f ∈ fields_ -> expression_of f = Some e ->
        exists e', (str_of f, e') ∈ update_expressions_of fields_).
Proof.
  unfold update_expressions_of.
  assert (forall (l : list update_field) (acc : list (string * Expression)),
            let out := foldl (fun d f => match expression_of f with
                                         | Some e => dict_set (str_of f) e d
                                         | None => d
                                         end) acc l in
            (forall n e, (n, e) ∈ out ->
               (n, e) ∈ acc
               \/ exists f, f ∈ l /\ str_of f = n /\ expression_of f = Some e)
            /\ (forall n, n ∈ map fst acc -> n ∈ map fst out)
            /\ (forall f e, f ∈ l -> expression_of f = Some e -> str_of f ∈ map fst out))
    as Hgen.
  { induction l as [|f l IH]; intros acc; cbv zeta; simpl.
    - split; [auto|]. split; [auto|]. intros f e Hf. inversion Hf.
    - destruct (expression_of f) as [e0|] eqn:He0.
      + destruct (IH (dict_set (str_of f) e0 acc)) as (H1 & H2 & H3).
        assert (forall n e, (n, e) ∈ dict_set (str_of f) e0 acc ->
                  (n, e) ∈ acc \/ (n = str_of f /\ e = e0)) as Hset.
        { clear. induction acc as [|[k v] acc IHa]; simpl; intros n e Hin.
          - apply list_elem_of_singleton in Hin. injection Hin as -> ->. now right.
          - destruct (String.eqb k (str_of f)) eqn:E.
            + apply String.eqb_eq in E. subst k.
              apply elem_of_cons in Hin as [Hin|Hin].
              * injection Hin as -> ->. now right.
              * left. now right.
            + apply elem_of_cons in Hin as [Hin|Hin].
              * left. rewrite Hin. left.
              * destruct (IHa _ _ Hin) as [?|?]; [left; now right | now right]. }
        assert (forall n, n ∈ map fst acc \/ n = str_of f ->
                  n ∈ map fst (dict_set (str_of f) e0 acc)) as Hkeys.
        { clear. induction acc as [|[k v] acc IHa]; simpl; intros n Hn.
          - destruct Hn as [Hn| ->]; [inversion Hn | left].
          - destruct (String.eqb k (str_of f)) eqn:E; simpl.
            + apply String.eqb_eq in E. subst k.
              destruct Hn as [Hn| ->]; [exact Hn | left].
            + destruct Hn as [Hn| ->].
              * apply elem_of_cons in Hn as [->|Hn]; [left | right; apply IHa; now left].
              * right. apply IHa. now right. }
        split; [|split].
        * intros n e Hin. destruct (H1 n e Hin) as [Hacc|(g & Hg & Hn & He)].
          -- destruct (Hset n e Hacc) as [?|[-> ->]]; [now left|].
             right. exists f. split; [left | auto].
          -- right. exists g. split; [now right | auto].
        * intros n Hn. apply H2, Hkeys. now left.
        * intros g e Hg He. apply elem_of_cons in Hg as [->|Hg]; [|eauto].
          apply H2, Hkeys. now right.
      + destruct (IH acc) as (H1 & H2 & H3). split; [|split]; [|exact H2|].
        * intros n e Hin. destruct (H1 n e Hin) as [?|(g & Hg & Hn & He)]; [now left|].
          right. exists g. split; [now right | auto].
        * intros g e Hg He. apply elem_of_cons in Hg as [->|Hg]; [congruence | eauto]. }
  destruct (Hgen fields_ []) as (H1 & _ & H3). cbv zeta in H1, H3. split.
  - intros n e Hin. destruct (H1 n e Hin) as [Habs|H]; [inversion Habs | exact H].
  - intros f e Hf He. specialize (H3 f e Hf He).
    apply list_elem_of_fmap in H3 as ([n e'] & Hn & Hin). simpl in Hn. subst n. eauto.
Qed.

Lemma columns_of_resolves (model : Model) (fields_ : list update_field) (cols : list string) :
  columns_of model fields_ = Ok cols -> Forall2 (resolves_to model) fields_ cols.
Proof.
  intros H. apply mapM_result_Ok in H. eapply Forall2_impl; [exact H|].
  intros f c Hfc. unfold mbind, result_bind, mret, result_ret in Hfc.
  destruct (get_field model (str_of f)) as [fld|e] eqn:Hf; [|discriminate].
  injection Hfc as <-. now exists fld.
Qed.

Lemma resolves_to_functional (model : Model) (f : update_field) (c c' : string) :
  resolves_to model f c -> resolves_to model f c' -> c = c'.
Proof. intros (fld & H1 & <-) (fld' & H2 & <-). congruence. Qed.

Lemma resolves_to_in (model : Model) (fields_ : list update_field) (cols : list string)
    (f : update_field) (c : string) :
  Forall2 (resolves_to model) fields_ cols -> f ∈ fields_ -> resolves_to model f c ->
  c ∈ cols.
Proof.
  intros HF Hf Hc. induction HF as [|g d l k Hgd _ IH]; [inversion Hf|].
  apply elem_of_cons in Hf as [->|Hf].
  - rewrite (resolves_to_functional _ _ _ _ Hc Hgd). left.
  - right. auto.
Qed.

Lemma resolves_to_injective (model : Model) (fields_ : list update_field)
    (cols : list string) (f f' : update_field) (c : string) :
  Forall2 (resolves_to model) fields_ cols -> NoDup cols ->
  f ∈ fields_ -> f' ∈ fields_ -> resolves_to model f c -> resolves_to model f' c ->
  f = f'.
Proof.
  intros HF. induction HF as [|g d l k Hgd HF IH]; intros Hnd Hf Hf' Hc Hc';
    [inversion Hf|].
  apply NoDup_cons in Hnd as [Hd Hnd].
  apply elem_of_cons in Hf as [->|Hf]; apply elem_of_cons in Hf' as [->|Hf'].
  - reflexivity.
  - exfalso. apply Hd. rewrite <- (resolves_to_functional _ _ _ _ Hc Hgd).
    eapply resolves_to_in; eauto.
  - exfalso. apply Hd. rewrite <- (resolves_to_functional _ _ _ _ Hc' Hgd).
    eapply resolves_to_in; eauto.
  - auto.
Qed.

Lemma assign_expressions_keys (model : Model) (items : list (string * Expression))
    (d rhs : list (string * string)) :
  assign_expressions model items d = Ok rhs ->
  (forall n e fld, (n, e) ∈ items -> get_field model n = Ok fld ->
     column fld ∈ map fst d) ->
  map fst rhs = map fst d.
Proof.
  revert d. induction items as [|[n e] items IH]; intros d; simpl.
  - now intros [= ->].
  - unfold mbind, result_bind. destruct (get_field model n) as [fld|err] eqn:Hn;
      [|discriminate].
    intros H Hitems.
    assert (column fld ∈ map fst d) as Hin by (eapply Hitems; [left | exact Hn]).
    rewrite (IH _ H).
    + now apply dict_set_keys_in.
    + intros n' e' fld' Hin' Hn'. rewrite dict_set_keys_in by exact Hin.
      eapply Hitems; [right; exact Hin' | exact Hn'].
Qed.

Lemma assign_expressions_keep (model : Model) (c v : string)
    (items : list (string * Expression)) (d rhs : list (string * string)) :
  assign_expressions model items d = Ok rhs ->
  (forall n e fld, (n, e) ∈ items -> get_field model n = Ok fld ->
     column fld = c -> as_sql_text e = v) ->
  dict_get c d = Some v -> dict_get c rhs = Some v.
Proof.
  revert d. induction items as [|[n e] items IH]; intros d; simpl.
  - now intros [= ->].
  - unfold mbind, result_bind. destruct (get_field model n) as [fld|err] eqn:Hn;
      [|discriminate].
    intros H Hitems Hd. apply (IH _ H).
    + intros n' e' fld' Hin'. apply (Hitems n' e' fld'). now right.
    + destruct (decide (column fld = c)) as [Hc|Hc].
      * rewrite Hc, dict_get_set_eq. f_equal. eapply Hitems; [left | exact Hn | exact Hc].
      * now rewrite dict_get_set_ne.
Qed.

Lemma assign_expressions_miss (model : Model) (c : string)
    (items : list (string * Expression)) (d rhs : list (string * string)) :
  assign_expressions model items d = Ok rhs ->
  (forall n e fld, (n, e) ∈ items -> get_field model n = Ok fld -> column fld <> c) ->
  dict_get c rhs = dict_get c d.
Proof.
  revert d. induction items as [|[n e] items IH]; intros d; simpl.
  - now intros [= ->].
  - unfold mbind, result_bind. destruct (get_field model n) as [fld|err] eqn:Hn;
      [|discriminate].
    intros H Hitems. rewrite (IH _ H).
    + apply dict_get_set_ne. eapply Hitems; [left | exact Hn].
    + intros n' e' fld' Hin'. apply (Hitems n' e' fld'). now right.
Qed.

Lemma assign_expressions_hit (model : Model) (c v : string)
    (items : list (string * Expression)) (d rhs : list (string * string)) :
  assign_expressions model items d = Ok rhs ->
  (forall n e fld, (n, e) ∈ items -> get_field model n = Ok fld ->
     column fld = c -> as_sql_text e = v) ->
  (exists n e fld, (n, e) ∈ items /\ get_field model n = Ok fld /\ column fld = c) ->
  dict_get c rhs = Some v.
Proof.
  revert d. induction items as [|[n e] items IH]; intros d; simpl.
  - intros _ _ (n & e & fld & Hin & _). inversion Hin.
  - unfold mbind, result_bind. destruct (get_field model n) as [fld|err] eqn:Hn;
      [|discriminate].
    intros H Hitems (n' & e' & fld' & Hin & Hn' & Hc').
    assert (forall n e fld, (n, e) ∈ items -> get_field model n = Ok fld ->
              column fld = c -> as_sql_text e = v) as Htail.
    { intros n0 e0 fld0 Hin0. apply (Hitems n0 e0 fld0). now right. }
    destruct (decide (column fld = c)) as [Hc|Hc].
    + apply (assign_expressions_keep _ _ _ _ _ _ H Htail).
      rewrite Hc, dict_get_set_eq. f_equal. eapply Hitems; [left | exact Hn | exact Hc].
    + apply (IH _ H Htail). apply elem_of_cons in Hin as [Hin|Hin].
      * injection Hin as -> ->. congruence.
      * exists n', e', fld'. auto.
Qed.

Lemma dict_get_map (g : string -> string) (cols : list string) (c : string) :
  c ∈ cols -> dict_get c (map (fun col => (col, g col)) cols) = Some (g c).
Proof.
  induction cols as [|c' cols IH]; [intros H; inversion H|]. simpl.
  intros H. destruct (String.eqb c' c) eqn:E.
  - apply String.eqb_eq in E. now subst.
  - apply IH. apply elem_of_cons in H as [->|H]; [|exact H].
    rewrite String.eqb_refl in E. discriminate.
Qed.

Lemma map_zip_with_resolved {B : Type} (model : Model) (g : string -> B)
    (k : update_field -> string -> B) (fields_ : list update_field) (cols : list string) :
  Forall2 (resolves_to model) fields_ cols ->
  (forall f c, f ∈ fields_ -> resolves_to model f c -> g c = k f c) ->
  map g cols = zip_with k fields_ cols.
Proof.
  intros HF. induction HF as [|f c l cs Hfc _ IH]; intros Hg; [reflexivity|].
  simpl. f_equal.
  - apply Hg; [left | exact Hfc].
  - apply IH. intros f' c' Hf'. apply Hg. now right.
Qed.

(** The dictionary of right-hand sides that [_get_update_fields_sql]
    builds, for update fields with distinct columns. *)
Lemma update_fields_expressions_spec (model : Model) (fields_ : list update_field)
    (alias : string) (cols : list string) (rhs : list (string * string)) :
  columns_of model fields_ = Ok cols -> NoDup cols ->
  assign_expressions model (update_expressions_of fields_)
    (alias_references alias cols) = Ok rhs ->
  map fst rhs = cols
  /\ forall f c, f ∈ fields_ -> resolves_to model f c ->
       dict_get c rhs = Some (right_hand_side alias f c).
Proof.
  intros Hcols Hnd Hrhs. pose proof (columns_of_resolves _ _ _ Hcols) as HF.
  destruct (update_expressions_items fields_) as [Hitems1 Hitems2].
  rewrite (alias_references_distinct alias cols Hnd) in Hrhs.
  assert (map fst (map (fun col => (col, alias +:+ "." +:+ _quote col)) cols) = cols)
    as Hkeys.
  { rewrite map_map. simpl. apply map_id. }
  split.
  - rewrite (assign_expressions_keys _ _ _ _ Hrhs); [exact Hkeys|].
    intros n e fld Hin Hn. rewrite Hkeys.
    destruct (Hitems1 n e Hin) as (f & Hf & <- & _).
    eapply resolves_to_in; [exact HF | exact Hf |]. now exists fld.
  - intros f c Hf Hc. unfold right_hand_side.
    assert (forall n e fld, (n, e) ∈ update_expressions_of fields_ ->
              get_field model n = Ok fld -> column fld = c ->
              expression_of f = Some e) as Hsame.
    { intros n e fld Hin Hn Hcol. destruct (Hitems1 n e Hin) as (f' & Hf' & <- & He').
      assert (f = f') as ->; [|exact He'].
      eapply resolves_to_injective; eauto. now exists fld. }
    destruct (expression_of f) as [e|] eqn:He.
    + eapply assign_expressions_hit; [exact Hrhs | |].
      * intros n e' fld Hin Hn Hcol. specialize (Hsame n e' fld Hin Hn Hcol). congruence.
      * destruct (Hitems2 f e Hf He) as [e' Hin]. destruct Hc as (fld & Hn & Hcol).
        exists (str_of f), e', fld. auto.
    + rewrite (assign_expressions_miss _ c _ _ _ Hrhs).
      * apply (dict_get_map (fun col => alias +:+ "." +:+ _quote col)).
        eapply resolves_to_in; eauto.
      * intros n e fld Hin Hn Hcol. specialize (Hsame n e fld Hin Hn Hcol). discriminate.
Qed.

(** X12: for update fields that resolve to distinct columns,
    [_get_update_fields_sql] renders one assignment per field, in the order
    of the fields: to the field's column, of the field's rendered expression
    if it carries one and of the column read from the alias otherwise.  With
    [ignore_unchanged] the change predicate compares the tuple of the table's
    columns with the tuple of those same right-hand sides, position by
    position. *)
Theorem set_list_by_field (model : Model) (fields_ : list update_field) (alias : string)
    (ignore_unchanged : bool) (cols : list string) (set_sql ignore_unchanged_sql : string) :
  columns_of model fields_ = Ok cols ->
  NoDup cols ->
  _get_update_fields_sql model fields_ alias ignore_unchanged
    = Ok (set_sql, ignore_unchanged_sql) ->
  set_sql
  = join ", " (zip_with (fun f col => _quote col +:+ " = " +:+ right_hand_side alias f col)
                 fields_ cols)
  /\ (ignore_unchanged = true -> fields_ <> [] ->
      ignore_unchanged_sql
      = "((" +:+ join ", " (map (fun col => _quote (db_table model) +:+ "." +:+ _quote col)
                              cols)
        +:+ ") IS DISTINCT FROM ("
        +:+ join ", " (zip_with (right_hand_side alias) fields_ cols) +:+ "))").
Proof.
  intros Hcols Hnd Hsql.
  apply _get_update_fields_sql_Ok in Hsql as (cols' & rhs & Hcols' & Hrhs & -> & ->).
  rewrite Hcols in Hcols'. injection Hcols' as <-.
  destruct (update_fields_expressions_spec _ _ _ _ _ Hcols Hnd Hrhs) as [Hkeys Hget].
  pose proof (columns_of_resolves _ _ _ Hcols) as HF.
  split.
  - unfold set_list. f_equal. apply (map_zip_with_resolved model); [exact HF|].
    intros f c Hf Hc. now rewrite (Hget f c Hf Hc).
  - intros -> Hne. unfold change_predicate.
    destruct cols as [|c cols].
    { apply Forall2_length in HF. destruct fields_; [congruence | discriminate]. }
    do 3 f_equal. apply (f_equal (fun s => s +:+ "))")). apply (f_equal (join ", ")).
    rewrite <- (dict_values_by_key rhs) by (rewrite Hkeys; exact Hnd).
    rewrite Hkeys. apply (map_zip_with_resolved model); [exact HF|].
    intros f c' Hf Hc. now rewrite (Hget f c' Hf Hc).
Qed.

Lemma set_list_by_field_witness :
  let fields_ := [Str "email"; UpdateField "count" (Some {| as_sql_text := "count + 1" |})] in
  exists set_sql ignore_unchanged_sql,
    _get_update_fields_sql account_model fields_ "EXCLUDED" true
      = Ok (set_sql, ignore_unchanged_sql)
    /\ set_sql
       = join ", " (zip_with (fun f col => _quote col +:+ " = "
                                +:+ right_hand_side "EXCLUDED" f col)
                      fields_ ["email"; "count"])
    /\ (true = true -> fields_ <> [] ->
        ignore_unchanged_sql
        = "((" +:+ join ", " (map (fun col => _quote (db_table account_model) +:+ "."
                                     +:+ _quote col) ["email"; "count"])
          +:+ ") IS DISTINCT FROM ("
          +:+ join ", " (zip_with (right_hand_side "EXCLUDED") fields_ ["email"; "count"])
          +:+ "))").
Proof.
  cbv zeta. eexists _, _. split; [vm_compute; reflexivity|].
  apply (set_list_by_field account_model
           [Str "email"; UpdateField "count" (Some {| as_sql_text := "count + 1" |})]
           "EXCLUDED" true ["email"; "count"]).
  - vm_compute. reflexivity.
  - apply (bool_decide_unpack _). vm_compute. exact I.
  - vm_compute. reflexivity.
Defined.

(** ** More on what the two operations execute *)

Lemma _get_values_for_rows_args (h : gmap nat (gmap string value)) (model_objs : list loc)
    (all_fields : list Field) :
  snd (_get_values_for_rows h model_objs all_fields)
  = concat (map (fun model_obj => _get_values_for_row h model_obj all_fields) model_objs).
Proof.
  unfold _get_values_for_rows. generalize 0%nat. intros i. revert i.
  induction model_objs as [|o objs IH]; intros i; [reflexivity|].
  cbn [_get_values_for_rows_from]. specialize (IH (S i)).
  destruct (_get_values_for_rows_from (S i) h objs all_fields) as [rv sa].
  simpl in *. now rewrite IH.
Qed.

(** X13: an upsert of a non-empty list of records that returns has executed
    one statement, whose arguments are the storage values of the records row
    by row: the records in the order of the row sequencer, each with one
    value per insert column, the values read from the records as the call
    leaves them (after the auto-timestamps are set).  None of the arguments
    is an expression: the upsert of a record that holds one raises before
    anything is executed. *)
Theorem upsert_arguments_row_major (cursor : Cursor) (model : Model)
    (model_objs : list loc) (unique_fields : list string)
    (update_fields : option (list update_field)) (exclude : option (list string))
    (returning : returning_arg) (ignore_unchanged : bool) (w : World)
    (r : option (list Row)) :
  let up := _upsert cursor model model_objs unique_fields update_fields exclude
              returning ignore_unchanged w in
  model_objs <> [] ->
  fst up = Ok r ->
  exists sorted_objs sql sql_args,
    _sort_by_unique_fields (heap (snd up)) model model_objs unique_fields = Ok sorted_objs
    /\ sql_args
       = concat (map (fun model_obj =>
                        _get_values_for_row (heap (snd up)) model_obj
                          (insert_fields model unique_fields))
                   sorted_objs)
    /\ executed (snd up) = executed w ++ [(sql, sql_args)]
    /\ forall a, a ∈ sql_args -> forall expr, a <> VExpr expr.
Proof.
  cbv zeta.
  destruct (_upsert_run cursor model model_objs unique_fields update_fields exclude
              returning ignore_unchanged w) as (w1 & Hfill & ->).
  destruct (_fill_auto_fields_run model model_objs w) as (w1' & Hfill' & He & _).
  rewrite Hfill in Hfill'. injection Hfill' as <-.
  intros Hne.
  destruct (_sort_by_unique_fields _ _ _ _) as [sorted_objs|e] eqn:Hsort;
    [|discriminate].
  destruct (_get_update_fields _ _ _) as [fields_|e]; [|discriminate].
  destruct sorted_objs as [|o sorted_objs].
  { apply sorted_length in Hsort. destruct model_objs; [congruence | discriminate]. }
  destruct (_get_upsert_sql _ _ _ _ _ _ _) as [[sql sql_args]|e] eqn:Hsql;
    [|discriminate].
  destruct (_prep_sql_args sql_args) as [args|e] eqn:Hprep; [|discriminate].
  apply _prep_sql_args_Ok in Hprep as [-> Hplain].
  intros _. simpl. exists (o :: sorted_objs), sql, sql_args.
  split; [exact Hsort|].
  apply _get_upsert_sql_Ok in Hsql as (_ & _ & _ & _ & _ & _ & _ & Hargs).
  rewrite _get_values_for_rows_args in Hargs.
  split; [exact Hargs|]. split; [now rewrite He | exact Hplain].
Qed.

Lemma upsert_arguments_row_major_witness :
  let up := _upsert two_row_cursor account_model [0%nat; 1%nat] ["email"]
              (Some [Str "count"]) None (ReturningBool true) false account_world in
  exists sorted_objs sql sql_args,
    _sort_by_unique_fields (heap (snd up)) account_model [0%nat; 1%nat] ["email"]
      = Ok sorted_objs
    /\ sql_args
       = concat (map (fun model_obj =>
                        _get_values_for_row (heap (snd up)) model_obj
                          (insert_fields account_model ["email"]))
                   sorted_objs)
    /\ executed (snd up) = executed account_world ++ [(sql, sql_args)]
    /\ forall a, a ∈ sql_args -> forall expr, a <> VExpr expr.
Proof.
  eapply (upsert_arguments_row_major two_row_cursor account_model [0%nat; 1%nat]
            ["email"] (Some [Str "count"]) None (ReturningBool true) false account_world).
  - discriminate.
  - vm_compute. reflexivity.
Defined.

Lemma sorted_by_pk_length (h : gmap nat (gmap string value)) (model : Model)
    (model_objs sorted_objs : list loc) :
  sorted_by_pk h model model_objs = Ok sorted_objs ->
  length sorted_objs = length model_objs.
Proof.
  unfold sorted_by_pk. destruct (pk model).
  - apply sorted_length.
  - destruct model_objs; [|discriminate]. now intros [= <-].
Qed.

(** X14: a bulk update that returns has executed a statement exactly when
    there is a record and a selected update field.  Without a record, or
    without a selected field, it executes nothing and returns [None],
    whatever [returning] is; otherwise the one statement carries one argument
    per record for the primary key and for each selected field. *)
Theorem update_executes_iff_work (cursor : Cursor) (model : Model)
    (model_objs : list loc) (update_fields : option (list update_field))
    (exclude : option (list string)) (returning : returning_arg)
    (ignore_unchanged : bool) (w : World) (fields_ : list update_field)
    (r : option (list Row)) :
  let bu := _update cursor model model_objs update_fields exclude returning
              ignore_unchanged w in
  _get_update_fields model update_fields exclude = Ok fields_ ->
  fst bu = Ok r ->
  (model_objs = [] \/ fields_ = [] -> executed (snd bu) = executed w /\ r = None)
  /\ (model_objs <> [] -> fields_ <> [] ->
      exists sql sql_args,
        executed (snd bu) = executed w ++ [(sql, sql_args)]
        /\ length sql_args = ((1 + length fields_) * length model_objs)%nat).
Proof.
  cbv zeta. rewrite _update_run. intros ->.
  destruct (columns_of model fields_) as [update_db_cols|e]; [|discriminate].
  destruct (sorted_by_pk _ _ _) as [sorted_objs|e] eqn:Hsort; [|discriminate].
  destruct (pk model) as [pk_field|] eqn:Hpk; [|discriminate].
  cbv zeta.
  destruct (mapM (update_row_values _ _ _) sorted_objs) as [row_values|e] eqn:Hrows;
    [|discriminate].
  pose proof (mapM_result_length _ _ _ Hrows) as Hlen.
  pose proof (sorted_by_pk_length _ _ _ _ Hsort) as Hlen'.
  destruct ((length row_values =? 0)%nat || (length fields_ =? 0)%nat) eqn:Hempty.
  - intros [= <-]. simpl. split; [auto|]. intros Hobjs Hfields. exfalso.
    apply orb_true_iff in Hempty as [H|H]; apply Nat.eqb_eq in H.
    + apply Hobjs. apply length_zero_iff_nil. lia.
    + apply Hfields. now apply length_zero_iff_nil.
  - apply orb_false_iff in Hempty as [Hr Hf]. apply Nat.eqb_neq in Hr, Hf.
    destruct (db_types_of _ _) as [db_types|e]; [|discriminate].
    destruct (columns_of model (Str (attname pk_field) :: fields_)) as [cols|e];
      [|discriminate].
    destruct (_get_update_fields_sql _ _ _ _) as [[set_sql ign_sql]|e]; [|discriminate].
    destruct (_prep_sql_args (concat row_values)) as [args|e] eqn:Hprep; [|discriminate].
    apply _prep_sql_args_Ok in Hprep as [-> _].
    intros _. simpl. split.
    + intros [-> | ->]; exfalso; [apply Hr; simpl in Hlen'; lia | now apply Hf].
    + intros _ _. eexists _, _. split; [reflexivity|].
      rewrite (concat_length_uniform (length (Str (attname pk_field) :: fields_))).
      * simpl. lia.
      * eapply update_row_values_length, Hrows.
Qed.

Lemma update_executes_iff_work_witness :
  let bu := _update two_row_cursor account_model [0%nat; 1%nat]
              (Some [Str "email"; Str "count"]) None (ReturningBool false) false
              account_world in
  ([0%nat; 1%nat] = [] \/ [Str "email"; Str "count"] = [] ->
     executed (snd bu) = executed account_world /\ (None : option (list Row)) = None)
  /\ ([0%nat; 1%nat] <> [] -> [Str "email"; Str "count"] <> [] ->
      exists sql sql_args,
        executed (snd bu) = executed account_world ++ [(sql, sql_args)]
        /\ length sql_args
           = ((1 + length [Str "email"; Str "count"]) * length [0%nat; 1%nat])%nat).
Proof.
  apply (update_executes_iff_work two_row_cursor account_model [0%nat; 1%nat]
           (Some [Str "email"; Str "count"]) None (ReturningBool false) false
           account_world [Str "email"; Str "count"] None).
  - vm_compute. reflexivity.
  - vm_compute. reflexivity.
Defined.

Lemma columns_of_raises (model : Model) (names : list string) (n : string) (e : exn) :
  n ∈ names -> get_field model n = Raise e ->
  exists e', columns_of model (map Str names) = Raise e'.
Proof.
  intros Hn Hraise. unfold columns_of.
  induction names as [|x names IH]; [inversion Hn|].
  cbn [map]. rewrite mapM_result_cons. cbn [str_of].
  unfold mbind at 1, result_bind at 1.
  destruct (get_field model x) as [fld|e0] eqn:Hx; [|eauto].
  assert (n ∈ names) as Hin.
  { apply elem_of_cons in Hn as [->|Hn]; [congruence | exact Hn]. }
  destruct (IH Hin) as (e' & He'). exists e'.
  unfold mret at 1, result_ret at 1. now rewrite He'.
Qed.

(** X15: an upsert of a non-empty list of records raises, and executes
    nothing, when [unique_fields] lists a name for which [_meta.get_field]
    raises [FieldDoesNotExist]. *)
Theorem unknown_unique_field_raises (cursor : Cursor) (model : Model)
    (model_objs : list loc) (unique_fields : list string)
    (update_fields : option (list update_field)) (exclude : option (list string))
    (returning : returning_arg) (ignore_unchanged : bool) (w : World) (n : string) :
  let up := _upsert cursor model model_objs unique_fields update_fields exclude
              returning ignore_unchanged w in
  n ∈ unique_fields ->
  get_field model n = Raise (FieldDoesNotExist n) ->
  model_objs <> [] ->
  exists e, fst up = Raise e /\ executed (snd up) = executed w.
Proof.
  cbv zeta. intros Hn Hun Hne.
  destruct (_upsert_run cursor model model_objs unique_fields update_fields exclude
              returning ignore_unchanged w) as (w1 & Hfill & ->).
  destruct (_fill_auto_fields_run model model_objs w) as (w1' & Hfill' & He & _).
  rewrite Hfill in Hfill'. injection Hfill' as <-.
  destruct (_sort_by_unique_fields _ _ _ _) as [sorted_objs|e] eqn:Hsort; [|eauto].
  destruct (_get_update_fields _ _ _) as [fields_|e] eqn:Hsel; [|eauto].
  destruct sorted_objs as [|o sorted_objs].
  { apply sorted_length in Hsort. destruct model_objs; [congruence | discriminate]. }
  destruct (columns_of_raises model unique_fields n _ Hn Hun) as (e' & Hraise).
  unfold _get_upsert_sql. rewrite Hraise. unfold mbind at 1, result_bind at 1.
  eauto.
Qed.

Lemma unknown_unique_field_raises_witness :
  let up := _upsert two_row_cursor account_model [0%nat; 1%nat] ["nickname"]
              (Some [Str "count"]) None (ReturningBool true) false account_world in
  exists e, fst up = Raise e /\ executed (snd up) = executed account_world.
Proof.
  apply (unknown_unique_field_raises two_row_cursor account_model [0%nat; 1%nat]
           ["nickname"] (Some [Str "count"]) None (ReturningBool true) false
           account_world "nickname").
  - left.
  - vm_compute. reflexivity.
  - discriminate.
Defined.
